(** * Error-tracked float64 arithmetic (package [predicates], float64pred.go)

    A shallow embedding of [Float64Pred] and its six arithmetic methods over
    IEEE 754 binary64, together with the properties the specification states
    about them.

    Go's [float64] is modelled by [spec_float] at precision 53 and maximal
    exponent 1024, with the operations [SFadd], [SFsub], [SFmul], [SFdiv]
    (round to nearest, ties to even), [SFabs] for [math.Abs] and [SFeqb] for
    the comparison [==].  Every arithmetic operation of the source is rounded
    on its own, as the amd64 compiler does (no fused multiply-add). *)

From Stdlib Require Import ZArith QArith Qabs Qpower Bool Lia Lqa List.
From Stdlib Require Import Floats.SpecFloat.

Local Open Scope Z_scope.

(** ** binary64 *)

Module F64.

Definition prec : Z := 53.
Definition emax : Z := 1024.

Definition float64 : Type := spec_float.

Definition valid (x : float64) : bool := valid_binary prec emax x.

Definition add : float64 -> float64 -> float64 := SFadd prec emax.
Definition sub : float64 -> float64 -> float64 := SFsub prec emax.
Definition mul : float64 -> float64 -> float64 := SFmul prec emax.
Definition div : float64 -> float64 -> float64 := SFdiv prec emax.
Definition abs : float64 -> float64 := SFabs.
Definition eqb : float64 -> float64 -> bool := SFeqb.
Definition leb : float64 -> float64 -> bool := SFleb.
Definition ltb : float64 -> float64 -> bool := SFltb.

(** The float64 nearest to [m * 2^e]; exact whenever [m] fits 53 bits. *)
Definition of_Z (m e : Z) : float64 := binary_normalize prec emax m e false.

Definition zero : float64 := S754_zero false.
Definition pinf : float64 := S754_infinity false.

Definition is_nan (x : float64) : bool :=
  match x with S754_nan => true | _ => false end.

Definition is_finite (x : float64) : bool :=
  match x with S754_zero _ | S754_finite _ _ _ => true | _ => false end.

(** The rational a finite float64 denotes. *)
Definition to_Q (x : float64) : option Q :=
  match x with
  | S754_zero _ => Some 0%Q
  | S754_finite s m e =>
      let q := (inject_Z (Zpos m) * Qpower 2 e)%Q in
      Some (if s then Qopp q else q)
  | _ => None
  end.

End F64.

Import F64.

(** ** The source *)

(** [macheps = 1.0 / (1 << 52)], an exact constant: 2^-52. *)
Definition macheps : float64 := Eval vm_compute in of_Z 1 (-52).

(** The constant expression [1 - macheps] is folded exactly by the compiler;
    1 - 2^-52 = (2^52 - 1) * 2^-52 is representable. *)
Definition one_minus_macheps : float64 := Eval vm_compute in of_Z (2 ^ 52 - 1) (-52).

(** [math.SmallestNonzeroFloat64], 2^-1074. *)
Definition SmallestNonzeroFloat64 : float64 := Eval vm_compute in of_Z 1 (-1074).

Record Float64Pred : Type := mkFloat64Pred {
  n : float64;   (* the number *)
  e : float64    (* the max rounding error possible *)
}.

Definition NewFloat64Pred (n0 : float64) : Float64Pred :=
  {| n := n0; e := zero |}.

Definition GetValues (p : Float64Pred) : float64 * float64 := (n p, e p).

Definition AddFloat64 (p : Float64Pred) (f : float64) : Float64Pred :=
  let pn := add (n p) f in
  if eqb pn zero
  then {| n := pn; e := add (e p) SmallestNonzeroFloat64 |}
  else {| n := pn; e := add (e p) (div (mul macheps (abs pn)) one_minus_macheps) |}.

Definition AddFloat64Pred (a b : Float64Pred) : Float64Pred :=
  let an := add (n a) (n b) in
  if eqb an zero
  then {| n := an; e := add (e a) (add SmallestNonzeroFloat64 (e b)) |}
  else {| n := an;
          e := add (e a) (add (div (mul macheps (abs an)) one_minus_macheps) (e b)) |}.

Definition SubFloat64 (p : Float64Pred) (f : float64) : Float64Pred :=
  let pn := sub (n p) f in
  if eqb pn zero
  then {| n := pn; e := add (e p) SmallestNonzeroFloat64 |}
  else {| n := pn; e := add (e p) (div (mul macheps (abs pn)) one_minus_macheps) |}.

Definition SubFloat64Pred (a b : Float64Pred) : Float64Pred :=
  let an := sub (n a) (n b) in
  if eqb an zero
  then {| n := an; e := add (e a) (add SmallestNonzeroFloat64 (e b)) |}
  else {| n := an;
          e := add (e a) (add (div (mul macheps (abs an)) one_minus_macheps) (e b)) |}.

(** Multiplication by a plain float64 (the source names it [MulFloat64Pred]). *)
Definition MulFloat64Pred (p : Float64Pred) (f : float64) : Float64Pred :=
  let pn := mul (n p) f in
  if eqb pn zero
  then {| n := pn;
          e := add (e p) (add SmallestNonzeroFloat64 (mul (e p) (abs f))) |}
  else {| n := pn;
          e := add (e p) (add (div (mul macheps (abs pn)) one_minus_macheps)
                              (mul (e p) (abs f))) |}.

(** Multiplication by another tracked number (the source names it
    [MulFloat64]).  [a.n] is overwritten by the product before the error is
    updated, so [math.Abs(a.n)] in the last term reads the product. *)
Definition MulFloat64 (a b : Float64Pred) : Float64Pred :=
  let an := mul (n a) (n b) in
  if eqb an zero
  then {| n := an;
          e := add (e a) (add (add SmallestNonzeroFloat64 (mul (e a) (abs (n b))))
                              (mul (e b) (abs an))) |}
  else {| n := an;
          e := add (e a) (add (add (div (mul macheps (abs an)) one_minus_macheps)
                                   (mul (e a) (abs (n b))))
                              (mul (e b) (abs an))) |}.

(** ** Sequences of operations *)

(** A computation built from the constructor and the six operations. *)
Inductive chain : Type :=
| New (n0 : float64)
| AddF (c : chain) (f : float64)
| SubF (c : chain) (f : float64)
| MulF (c : chain) (f : float64)
| AddP (c d : chain)
| SubP (c d : chain)
| MulP (c d : chain).

(** What the code computes along a chain. *)
Fixpoint run (c : chain) : Float64Pred :=
  match c with
  | New n0 => NewFloat64Pred n0
  | AddF c f => AddFloat64 (run c) f
  | SubF c f => SubFloat64 (run c) f
  | MulF c f => MulFloat64Pred (run c) f
  | AddP c d => AddFloat64Pred (run c) (run d)
  | SubP c d => SubFloat64Pred (run c) (run d)
  | MulP c d => MulFloat64 (run c) (run d)
  end.

(** All plain float64 arguments of a chain are float64 values. *)
Fixpoint chain_valid (c : chain) : bool :=
  match c with
  | New n0 => valid n0
  | AddF c f | SubF c f | MulF c f => chain_valid c && valid f
  | AddP c d | SubP c d | MulP c d => chain_valid c && chain_valid d
  end.

(** The exact result of a chain: the same operations in rational arithmetic,
    every argument taken as the rational it denotes. *)
Definition lift2 (op : Q -> Q -> Q) (x y : option Q) : option Q :=
  match x, y with
  | Some a, Some b => Some (op a b)
  | _, _ => None
  end.

Fixpoint exact (c : chain) : option Q :=
  match c with
  | New n0 => to_Q n0
  | AddF c f => lift2 Qplus (exact c) (to_Q f)
  | SubF c f => lift2 Qminus (exact c) (to_Q f)
  | MulF c f => lift2 Qmult (exact c) (to_Q f)
  | AddP c d => lift2 Qplus (exact c) (exact d)
  | SubP c d => lift2 Qminus (exact c) (exact d)
  | MulP c d => lift2 Qmult (exact c) (exact d)
  end.

(** The stored error bound covers the distance between the stored value and
    the exact result. *)
Definition error_bound_sound (c : chain) : Prop :=
  forall v b t,
    to_Q (n (run c)) = Some v -> to_Q (e (run c)) = Some b -> exact c = Some t ->
    (Qabs (v - t) <= b)%Q.

(** A float64 that is not negative: NaN, or a value with a clear sign bit. *)
Definition nonneg (x : float64) : bool :=
  match x with
  | S754_nan => true
  | S754_zero s | S754_infinity s | S754_finite s _ _ => negb s
  end.

(** ** The specification's formulas *)

Module Spec.

Definition unitRoundoff : float64 := Eval vm_compute in of_Z 1 (-52).
Definition one : float64 := Eval vm_compute in of_Z 1 0.
Definition smallestPositive : float64 := S754_finite false 1 (-1074).

(** The rounding-increment rule. *)
Definition increment (v : float64) : float64 :=
  if eqb v zero then smallestPositive
  else div (mul unitRoundoff (abs v)) (sub one unitRoundoff).

(** The operations as section 4.1 writes them, every sum and product a
    float64 operation, evaluated left to right. *)
Definition AddScalar (s : Float64Pred) (f : float64) : Float64Pred :=
  let v := add (n s) f in
  {| n := v; e := add (e s) (increment v) |}.

Definition SubScalar (s : Float64Pred) (f : float64) : Float64Pred :=
  let v := sub (n s) f in
  {| n := v; e := add (e s) (increment v) |}.

Definition AddTracked (a b : Float64Pred) : Float64Pred :=
  let v := add (n a) (n b) in
  {| n := v; e := add (add (e a) (e b)) (increment v) |}.

Definition SubTracked (a b : Float64Pred) : Float64Pred :=
  let v := sub (n a) (n b) in
  {| n := v; e := add (add (e a) (e b)) (increment v) |}.

Definition MulScalar (s : Float64Pred) (f : float64) : Float64Pred :=
  let v := mul (n s) f in
  {| n := v; e := add (mul (e s) (abs f)) (increment v) |}.

Definition MulTracked (a b : Float64Pred) : Float64Pred :=
  let v := mul (n a) (n b) in
  {| n := v;
     e := add (add (mul (e a) (abs (n b))) (mul (e b) (abs (n a)))) (increment v) |}.

End Spec.

(** ** One operation applied to a scalar *)

(** [step s s']: [s'] is the result of one of the six operations on [s]; a
    tracked second operand carries an error bound that is not negative. *)
Inductive step (s : Float64Pred) : Float64Pred -> Prop :=
| step_AddFloat64 f : step s (AddFloat64 s f)
| step_SubFloat64 f : step s (SubFloat64 s f)
| step_MulFloat64Pred f : step s (MulFloat64Pred s f)
| step_AddFloat64Pred b : nonneg (e b) = true -> step s (AddFloat64Pred s b)
| step_SubFloat64Pred b : nonneg (e b) = true -> step s (SubFloat64Pred s b)
| step_MulFloat64 b : nonneg (e b) = true -> step s (MulFloat64 s b).

(** [extends c c']: the chain [c'] continues [c] by further operations on
    its result. *)
Inductive extends (c : chain) : chain -> Prop :=
| extends_refl : extends c c
| extends_AddF c' f : extends c c' -> extends c (AddF c' f)
| extends_SubF c' f : extends c c' -> extends c (SubF c' f)
| extends_MulF c' f : extends c c' -> extends c (MulF c' f)
| extends_AddP c' d : extends c c' -> extends c (AddP c' d)
| extends_SubP c' d : extends c c' -> extends c (SubP c' d)
| extends_MulP c' d : extends c c' -> extends c (MulP c' d).

(** Two ways to multiply [n0] by [a] and by [b]. *)
Definition chained (n0 a b : float64) : chain := MulF (MulF (New n0) a) b.
Definition single (n0 a b : float64) : chain := MulF (New n0) (mul a b).

(** ** Some float64 values *)

Definition c_1 : float64 := Eval vm_compute in of_Z 1 0.
Definition c_2 : float64 := Eval vm_compute in of_Z 2 0.
Definition c_3 : float64 := Eval vm_compute in of_Z 3 0.
Definition c_5 : float64 := Eval vm_compute in of_Z 5 0.
Definition c_6 : float64 := Eval vm_compute in of_Z 6 0.
(** 1.4, that is 0x1.6666666666666p+0 *)
Definition c_1_4 : float64 := S754_finite false 6305039478318694 (-52).
Definition c_2p53 : float64 := Eval vm_compute in of_Z 1 53.
Definition c_2p300 : float64 := Eval vm_compute in of_Z 1 300.
Definition c_2p600 : float64 := Eval vm_compute in of_Z 1 600.
Definition c_2p900 : float64 := Eval vm_compute in of_Z 1 900.
Definition c_2p1000 : float64 := Eval vm_compute in of_Z 1 1000.

(** ** Some chains *)

(** 0 + 2, 0 + 3 and 0 + 5 *)
Definition ch_0_plus_2 : chain := AddF (New zero) c_2.
Definition ch_0_plus_3 : chain := AddF (New zero) c_3.
Definition ch_0_plus_5 : chain := AddF (New zero) c_5.

(** 1 + 2 *)
Definition ch_1_plus_2 : chain := AddF (New c_1) c_2.

(** (2^53 + 1) - 2^53: the stored value is 0, the exact result 1. *)
Definition ch_lost_one : chain := SubF (AddF (New c_2p53) c_1) c_2p53.

(** 5 * ((2^53 + 1) - 2^53) *)
Definition ch_five_times : chain := MulP (New c_5) ch_lost_one.

(** 2^1000 * 2^1000 overflows. *)
Definition ch_overflow : chain := MulF (New c_2p1000) c_2p1000.

(** (2^1000 * 2^1000) * 0 *)
Definition ch_nan : chain := MulF ch_overflow zero.

(** 1.4 * 2^-1074 underflows to 2^-1074. *)
Definition ch_underflow : chain := MulF (New c_1_4) SmallestNonzeroFloat64.

(** 2^600 * (0 + 2^300) - 2^900: the value is 0 and the bound has overflowed. *)
Definition ch_zero_inf : chain :=
  SubF (MulP (New c_2p600) (AddF (New zero) c_2p300)) c_2p900.


(** ** Further notions *)

(** Go's unary minus. *)
Definition opp (x : float64) : float64 := SFopp x.

(** The scalar with the value negated and the same error bound. *)
Definition negated (p : Float64Pred) : Float64Pred :=
  {| n := opp (n p); e := e p |}.

(** The same chain in plain float64 arithmetic, without any error tracking. *)
Fixpoint plain (c : chain) : float64 :=
  match c with
  | New n0 => n0
  | AddF c f => add (plain c) f
  | SubF c f => sub (plain c) f
  | MulF c f => mul (plain c) f
  | AddP c d => add (plain c) (plain d)
  | SubP c d => sub (plain c) (plain d)
  | MulP c d => mul (plain c) (plain d)
  end.

(** A chain that ends with an operation, not with the constructor. *)
Definition is_result (c : chain) : bool :=
  match c with New _ => false | _ => true end.

(** ** Magnitudes *)

Definition pow2 (k : Z) : Q := Qpower 2 k.

(** The dyadic rational [A * 2^p]. *)
Definition dy (A p : Z) : Q := (inject_Z A * pow2 p)%Q.

(** The magnitude of a finite float64, 0 otherwise. *)
Definition mag (x : float64) : Q :=
  match x with
  | S754_finite _ m ex => dy (Zpos m) ex
  | _ => 0%Q
  end.

(** A normal number: finite, not zero, with a full mantissa. *)
Definition normal (x : float64) : bool :=
  match x with
  | S754_finite _ m _ => Zpos (digits2_pos m) =? prec
  | _ => false
  end.

(** 2^-52 *)
Definition eps : Q := 1 # 4503599627370496.

(** The magnitude scaled by macheps, and the increment, as the source
    computes them for a value that is not zero. *)
Definition scaled (v : float64) : float64 := mul macheps (abs v).
Definition increment_of (v : float64) : float64 := div (scaled v) one_minus_macheps.

(** No product and no term of the two error bounds underflows, overflows or
    is NaN: each is a normal float64. *)
Definition no_underflow (n0 a b : float64) : bool :=
  let n1 := mul n0 a in
  let n2 := mul n1 b in
  let ab := mul a b in
  let n' := mul n0 ab in
  forallb normal
    (n1 :: n2 :: ab :: n' ::
     scaled n1 :: scaled n2 :: scaled n' ::
     increment_of n1 :: increment_of n2 :: increment_of n' ::
     mul (e (MulFloat64Pred (NewFloat64Pred n0) a)) (abs b) :: nil).

(** 0.1, 0.3 and 0.7 *)
Definition c_0_1 : float64 := S754_finite false 7205759403792794 (-56).
Definition c_0_3 : float64 := S754_finite false 5404319552844595 (-54).
Definition c_0_7 : float64 := S754_finite false 6305039478318694 (-53).

(** ** Rounding *)

(** The result of rounding [m * 2^e0] when [e0] is fine enough for the
    format: either zero, or a canonical mantissa at an exponent not below the
    one the format assigns to the exact value. *)
Inductive rounded (s : bool) (m1 t : Z) : spec_float -> Prop :=
| rounded_zero : m1 = 0 -> rounded s m1 t (S754_zero s)
| rounded_fin m2 e2 :
    canonical_mantissa prec emax m2 e2 = true ->
    e2 <= emax - prec ->
    (e2 = t /\ m1 <= Zpos m2 <= m1 + 1) \/ (t < e2 /\ 0 < m1) ->
    rounded s m1 t (S754_finite s m2 e2)
| rounded_inf : 0 < m1 -> rounded s m1 t (S754_infinity s).

(** ** Signs *)

Lemma binary_round_aux_nonneg m ex l :
  nonneg (binary_round_aux prec emax false m ex l) = true.
Proof.
  unfold binary_round_aux.
  destruct (shr_fexp prec emax m ex l) as [mrs e1].
  destruct (shr_fexp prec emax _ e1 loc_Exact) as [mrs2 e2].
  destruct (shr_m mrs2); try reflexivity.
  destruct (e2 <=? emax - prec); reflexivity.
Qed.

Lemma abs_nonneg x : nonneg (abs x) = true.
Proof. destruct x; reflexivity. Qed.

Lemma mul_nonneg x y :
  nonneg x = true -> nonneg y = true -> nonneg (mul x y) = true.
Proof.
  destruct x as [[|]|[|]| |[|] mx ex], y as [[|]|[|]| |[|] my ey];
    simpl; try discriminate; try reflexivity; intros _ _.
  apply binary_round_aux_nonneg.
Qed.

Lemma div_nonneg x y :
  nonneg x = true -> nonneg y = true -> nonneg (div x y) = true.
Proof.
  destruct x as [[|]|[|]| |[|] mx ex], y as [[|]|[|]| |[|] my ey];
    simpl; try discriminate; try reflexivity; intros _ _.
  unfold div, SFdiv.
  destruct (SFdiv_core_binary prec emax (Z.pos mx) ex (Z.pos my) ey) as [[mz ez] lz].
  apply binary_round_aux_nonneg.
Qed.

Lemma add_nonneg x y :
  nonneg x = true -> nonneg y = true -> nonneg (add x y) = true.
Proof.
  destruct x as [[|]|[|]| |[|] mx ex], y as [[|]|[|]| |[|] my ey];
    simpl; try discriminate; try reflexivity; intros _ _.
  unfold add, SFadd, cond_Zopp, binary_normalize, binary_round.
  destruct (shl_align mx ex (Z.min ex ey)) as [m1 e1].
  destruct (shl_align my ey (Z.min ex ey)) as [m2 e2].
  cbn [fst Z.add].
  destruct (shl_align (m1 + m2) _ _) as [mz ez].
  apply binary_round_aux_nonneg.
Qed.

Lemma add_zero_l x : nonneg x = true -> add zero x = x.
Proof. destruct x as [[|]|[|]| |[|] mx ex]; simpl; try discriminate; reflexivity. Qed.

Lemma add_zero_l_nz x : eqb x zero = false -> add zero x = x.
Proof. destruct x as [[|]|[|]| |[|] mx ex]; simpl; try discriminate; reflexivity. Qed.

(** ** Digits, shifts and rounding to the format *)

Lemma digits2_pos_bounds (p : positive) :
  2 ^ (Zpos (digits2_pos p) - 1) <= Zpos p < 2 ^ Zpos (digits2_pos p).
Proof.
  induction p as [p IH|p IH|]; cbn [digits2_pos].
  - rewrite Pos2Z.inj_succ.
    replace (Z.succ (Zpos (digits2_pos p)) - 1) with (Z.succ (Zpos (digits2_pos p) - 1)) by lia.
    rewrite !Z.pow_succ_r by lia. lia.
  - rewrite Pos2Z.inj_succ.
    replace (Z.succ (Zpos (digits2_pos p)) - 1) with (Z.succ (Zpos (digits2_pos p) - 1)) by lia.
    rewrite !Z.pow_succ_r by lia. lia.
  - simpl. lia.
Qed.

Lemma iter_xO_value (m d : positive) :
  Zpos (Pos.iter xO m d) = Zpos m * 2 ^ Zpos d.
Proof.
  induction d as [|d IH] using Pos.peano_ind.
  - simpl. lia.
  - rewrite Pos.iter_succ, Pos2Z.inj_xO, IH, Pos2Z.inj_succ, Z.pow_succ_r by lia. lia.
Qed.

Lemma iter_xO_digits (m d : positive) :
  Zpos (digits2_pos (Pos.iter xO m d)) = Zpos (digits2_pos m) + Zpos d.
Proof.
  induction d as [|d IH] using Pos.peano_ind.
  - simpl. lia.
  - rewrite Pos.iter_succ. cbn [digits2_pos]. rewrite !Pos2Z.inj_succ, IH. lia.
Qed.

Lemma shr_1_m mrs : 0 <= shr_m mrs -> shr_m (shr_1 mrs) = shr_m mrs / 2.
Proof.
  destruct mrs as [m r s]; cbn [shr_m]. intros Hm.
  destruct m as [|[p|p|]|p]; cbn [shr_1 shr_m]; try reflexivity; try lia.
  - apply Z.div_unique with 1; lia.
  - apply Z.div_unique with 0; lia.
Qed.

Lemma pow2_xO (p : positive) : 2 ^ Zpos p~0 = 2 ^ Zpos p * 2 ^ Zpos p.
Proof.
  replace (Zpos p~0) with (Zpos p + Zpos p) by lia. apply Z.pow_add_r; lia.
Qed.

Lemma pow2_xI (p : positive) : 2 ^ Zpos p~1 = 2 * (2 ^ Zpos p * 2 ^ Zpos p).
Proof.
  replace (Zpos p~1) with (Z.succ (Zpos p + Zpos p)) by lia.
  rewrite Z.pow_succ_r, Z.pow_add_r by lia. reflexivity.
Qed.

Lemma iter_shr_1_m (p : positive) : forall mrs,
  0 <= shr_m mrs ->
  shr_m (iter_pos shr_1 p mrs) = shr_m mrs / 2 ^ Zpos p.
Proof.
  assert (Hnn : forall q mrs,
             (forall mrs', 0 <= shr_m mrs' ->
                shr_m (iter_pos shr_1 q mrs') = shr_m mrs' / 2 ^ Zpos q) ->
             0 <= shr_m mrs -> 0 <= shr_m (iter_pos shr_1 q mrs)).
  { intros q mrs Hq Hm. rewrite Hq by exact Hm. apply Z.div_pos; lia. }
  induction p as [p IH|p IH|]; intros mrs Hm; cbn [iter_pos].
  - assert (H1 : 0 <= shr_m (shr_1 mrs)) by (rewrite shr_1_m by lia; apply Z.div_pos; lia).
    rewrite IH by (apply Hnn; assumption).
    rewrite IH by assumption.
    rewrite shr_1_m by lia.
    rewrite !Z.div_div by lia.
    rewrite pow2_xI. reflexivity.
  - rewrite IH by (apply Hnn; assumption).
    rewrite IH by assumption.
    rewrite !Z.div_div by lia.
    rewrite pow2_xO. reflexivity.
  - rewrite shr_1_m by lia. reflexivity.
Qed.

Lemma Zdigits2_nonneg z : 0 <= Zdigits2 z.
Proof. destruct z; simpl; lia. Qed.

Lemma Zdigits2_bounds z :
  0 < z -> 2 ^ (Zdigits2 z - 1) <= z < 2 ^ Zdigits2 z.
Proof. destruct z as [|p|p]; try lia. intros _. apply digits2_pos_bounds. Qed.

Lemma Zdigits2_lower z j : 0 <= j -> 2 ^ j <= z -> j + 1 <= Zdigits2 z.
Proof.
  intros Hj Hz.
  assert (Hpos : 0 < z) by (pose proof (Z.pow_pos_nonneg 2 j); lia).
  destruct (Zdigits2_bounds z Hpos) as [_ Hu].
  assert (H : 2 ^ j < 2 ^ Zdigits2 z) by lia.
  apply Z.pow_lt_mono_r_iff in H; [lia | lia | apply Zdigits2_nonneg].
Qed.

Lemma Zdigits2_upper z j : 0 <= j -> 0 <= z < 2 ^ j -> Zdigits2 z <= j.
Proof.
  intros Hj [Hz0 Hz].
  destruct (Z.eq_dec z 0) as [->|Hnz]; [simpl; lia|].
  destruct (Zdigits2_bounds z ltac:(lia)) as [Hl _].
  assert (H : 2 ^ (Zdigits2 z - 1) < 2 ^ j) by lia.
  apply Z.pow_lt_mono_r_iff in H; lia.
Qed.

Lemma Zdigits2_le z z' : 0 <= z <= z' -> Zdigits2 z <= Zdigits2 z'.
Proof.
  intros [H0 Hle].
  destruct (Z.eq_dec z 0) as [->|Hnz]; [apply Zdigits2_nonneg|].
  destruct (Zdigits2_bounds z ltac:(lia)) as [Hl _].
  pose proof (Zdigits2_nonneg z).
  assert (1 <= Zdigits2 z) by (destruct z; simpl in *; lia).
  pose proof (Zdigits2_lower z' (Zdigits2 z - 1) ltac:(lia) ltac:(lia)). lia.
Qed.

Lemma shr_spec mrs e0 k :
  0 <= shr_m mrs ->
  shr_m (fst (shr mrs e0 k)) = shr_m mrs / 2 ^ Z.max 0 k /\
  snd (shr mrs e0 k) = e0 + Z.max 0 k.
Proof.
  intros Hm. destruct k as [|p|p]; cbn [shr fst snd].
  - rewrite Z.max_id, Z.pow_0_r, Z.div_1_r. lia.
  - rewrite iter_shr_1_m by exact Hm. rewrite Z.max_r by lia. lia.
  - rewrite Z.max_l by lia. rewrite Z.pow_0_r, Z.div_1_r. lia.
Qed.

Lemma shr_m_of_loc m l : shr_m (shr_record_of_loc m l) = m.
Proof. destruct l as [|[| |]]; reflexivity. Qed.

Lemma round_nearest_even_bounds m l :
  m <= round_nearest_even m l <= m + 1.
Proof.
  destruct l as [|[| |]]; cbn [round_nearest_even]; try lia.
  destruct (Z.even m); lia.
Qed.

Lemma fexp_ge_emin z : emin prec emax <= fexp prec emax z.
Proof. unfold fexp. lia. Qed.

Lemma fexp_le z z' : z <= z' -> fexp prec emax z <= fexp prec emax z'.
Proof. unfold fexp. lia. Qed.

Lemma Zdigits2_div_pow2 m k :
  0 <= k -> 0 < m / 2 ^ k -> Zdigits2 m - k <= Zdigits2 (m / 2 ^ k).
Proof.
  intros Hk Hq.
  assert (H2k : 0 < 2 ^ k) by (apply Z.pow_pos_nonneg; lia).
  assert (Hm : 2 ^ k <= m).
  { destruct (Z_lt_le_dec m (2 ^ k)) as [Hlt|]; [|assumption].
    destruct (Z_lt_le_dec m 0) as [Hneg|Hnn].
    - pose proof (Z.div_lt_upper_bound m (2 ^ k) 0 H2k ltac:(lia)). lia.
    - rewrite Z.div_small in Hq by lia. lia. }
  destruct (Zdigits2_bounds m ltac:(lia)) as [Hl Hu].
  assert (Hkd : k < Zdigits2 m).
  { assert (H : 2 ^ k < 2 ^ Zdigits2 m) by lia.
    apply Z.pow_lt_mono_r_iff in H; [lia | lia | apply Zdigits2_nonneg]. }
  pose proof (Zdigits2_lower (m / 2 ^ k) (Zdigits2 m - 1 - k) ltac:(lia)) as H.
  assert (2 ^ (Zdigits2 m - 1 - k) <= m / 2 ^ k).
  { apply Z.div_le_lower_bound; [lia|].
    rewrite <- Z.pow_add_r by lia.
    replace (k + (Zdigits2 m - 1 - k)) with (Zdigits2 m - 1) by lia. lia. }
  lia.
Qed.

Lemma binary_round_aux_rounded s m e0 l :
  0 <= m -> e0 <= fexp prec emax (Zdigits2 m + e0) ->
  rounded s (m / 2 ^ (fexp prec emax (Zdigits2 m + e0) - e0))
          (fexp prec emax (Zdigits2 m + e0))
          (binary_round_aux prec emax s m e0 l).
Proof.
  intros Hm He0.
  unfold binary_round_aux, shr_fexp.
  set (t := fexp prec emax (Zdigits2 m + e0)) in *.
  pose proof (shr_spec (shr_record_of_loc m l) e0 (t - e0)) as H1.
  rewrite shr_m_of_loc in H1. specialize (H1 Hm).
  destruct (shr (shr_record_of_loc m l) e0 (t - e0)) as [mrs1 e1].
  cbn [fst snd] in H1. destruct H1 as [Hm1 He1].
  rewrite Z.max_r in Hm1, He1 by lia.
  assert (He1x : e1 = t) by lia. clear He1. subst e1.
  rewrite Hm1. set (m1 := m / 2 ^ (t - e0)) in *.
  assert (Hm1nn : 0 <= m1) by (apply Z.div_pos; [lia | apply Z.pow_pos_nonneg; lia]).
  pose proof (round_nearest_even_bounds m1 (loc_of_shr_record mrs1)) as Hr.
  set (m1r := round_nearest_even m1 (loc_of_shr_record mrs1)) in *.
  pose proof (shr_spec (shr_record_of_loc m1r loc_Exact) t
                (fexp prec emax (Zdigits2 m1r + t) - t)) as H2.
  rewrite shr_m_of_loc in H2. specialize (H2 ltac:(lia)).
  destruct (shr (shr_record_of_loc m1r loc_Exact) t
              (fexp prec emax (Zdigits2 m1r + t) - t)) as [mrs2 e2].
  cbn [fst snd] in H2. destruct H2 as [Hm2 He2].
  pose proof (fexp_ge_emin (Zdigits2 m + e0)) as Htemin. fold t in Htemin.
  (* when the first shift drops every digit the exponent is the least one *)
  assert (Hzero : m1 = 0 -> t = emin prec emax).
  { intros Hz. unfold m1 in Hz.
    destruct (Z.eq_dec m 0) as [->|Hmnz].
    - unfold t in *. simpl Zdigits2 in *. unfold fexp, prec in *. lia.
    - assert (Hlt : m < 2 ^ (t - e0)).
      { destruct (Z_lt_le_dec m (2 ^ (t - e0))) as [|Hge]; [assumption|].
        assert (1 <= m / 2 ^ (t - e0)).
        { apply Z.div_le_lower_bound; [apply Z.pow_pos_nonneg; lia | lia]. }
        lia. }
      destruct (Zdigits2_bounds m ltac:(lia)) as [Hl _].
      assert (H : 2 ^ (Zdigits2 m - 1) < 2 ^ (t - e0)) by lia.
      apply Z.pow_lt_mono_r_iff in H; [|lia|lia].
      unfold t, fexp, prec in *. lia. }
  destruct (Z_le_gt_dec (fexp prec emax (Zdigits2 m1r + t) - t) 0) as [Hk2|Hk2].
  - (* no second shift *)
    rewrite Z.max_l in Hm2, He2 by lia.
    rewrite Z.pow_0_r, Z.div_1_r in Hm2. rewrite Z.add_0_r in He2. subst e2.
    rewrite Hm2.
    destruct m1r as [|q|q] eqn:Eq; [constructor; lia| |lia].
    assert (Hcan : canonical_mantissa prec emax q t = true).
    { unfold canonical_mantissa. apply Z.eqb_eq.
      change (Z.pos (digits2_pos q)) with (Zdigits2 (Zpos q)).
      apply Z.le_antisymm; [lia|].
      destruct (Z.eq_dec m1 0) as [Hz|Hnz].
      - rewrite (Hzero Hz). apply fexp_ge_emin.
      - unfold t at 1. apply fexp_le.
        pose proof (Zdigits2_div_pow2 m (t - e0) ltac:(lia) ltac:(fold m1; lia)) as Hd.
        fold m1 in Hd.
        pose proof (Zdigits2_le m1 (Zpos q) ltac:(lia)). lia. }
    destruct (t <=? emax - prec) eqn:Hle.
    + apply rounded_fin; [exact Hcan | apply Z.leb_le; exact Hle | left; lia].
    + apply rounded_inf. apply Z.leb_gt in Hle.
      destruct (Z.eq_dec m1 0) as [Hz|Hnz]; [|lia].
      rewrite (Hzero Hz) in Hle. unfold emin, emax, prec in Hle. lia.
  - (* the rounded mantissa has one digit too many *)
    rewrite Z.max_r in Hm2, He2 by lia.
    assert (Hk2' : fexp prec emax (Zdigits2 m1r + t) - t = Zdigits2 m1r - prec).
    { unfold fexp in *. lia. }
    rewrite Hk2' in *.
    assert (Hm1rpos : 0 < m1r).
    { destruct m1r; simpl in Hk2; unfold prec in *; lia. }
    destruct (Zdigits2_bounds m1r Hm1rpos) as [Hl Hu].
    set (k2 := Zdigits2 m1r - prec) in *.
    assert (H2k : 0 < 2 ^ k2) by (apply Z.pow_pos_nonneg; lia).
    assert (Hlow : 2 ^ (prec - 1) <= m1r / 2 ^ k2).
    { apply Z.div_le_lower_bound; [lia|].
      rewrite <- Z.pow_add_r by (unfold prec; lia).
      replace (k2 + (prec - 1)) with (Zdigits2 m1r - 1) by (unfold k2; lia). lia. }
    assert (Hupp : m1r / 2 ^ k2 < 2 ^ prec).
    { apply Z.div_lt_upper_bound; [lia|].
      rewrite <- Z.pow_add_r by (unfold prec; lia).
      replace (k2 + prec) with (Zdigits2 m1r) by (unfold k2; lia). lia. }
    assert (Hm1pos : 0 < m1).
    { assert (2 ^ prec <= m1r).
      { apply Z.le_trans with (2 ^ (Zdigits2 m1r - 1)); [|lia].
        apply Z.pow_le_mono_r; unfold k2 in *; lia. }
      assert (1 < 2 ^ prec) by (unfold prec; reflexivity). lia. }
    rewrite Hm2.
    assert (Hpp : 0 < 2 ^ (prec - 1)) by (unfold prec; reflexivity).
    destruct (m1r / 2 ^ k2) as [|q|q] eqn:Eq; [lia| |lia].
    assert (Hdq : Zdigits2 (Zpos q) = prec).
    { apply Z.le_antisymm.
      - apply Zdigits2_upper; unfold prec in *; lia.
      - pose proof (Zdigits2_lower (Zpos q) (prec - 1) ltac:(unfold prec; lia) Hlow). lia. }
    destruct (e2 <=? emax - prec) eqn:Hle.
    + apply rounded_fin; [ | apply Z.leb_le; exact Hle | right; lia].
      unfold canonical_mantissa. apply Z.eqb_eq.
      change (Z.pos (digits2_pos q)) with (Zdigits2 (Zpos q)).
      rewrite Hdq. unfold fexp. lia.
    + apply rounded_inf. exact Hm1pos.
Qed.

Lemma rounded_valid s m1 t r : rounded s m1 t r -> valid r = true.
Proof.
  intros [Hz|m2 e2 Hcan Hle _|Hp]; try reflexivity.
  unfold valid, valid_binary, bounded. rewrite Hcan. apply Z.leb_le in Hle.
  rewrite Hle. reflexivity.
Qed.

Lemma binary_round_rounded s m ez :
  let t := fexp prec emax (Zpos (digits2_pos m) + ez) in
  rounded s (if t <=? ez then Zpos m * 2 ^ (ez - t) else Zpos m / 2 ^ (t - ez)) t
          (binary_round prec emax s m ez).
Proof.
  intros t. unfold binary_round, shl_align. fold t.
  destruct (t - ez) as [|d|d] eqn:Hd.
  - assert (t = ez) by lia.
    pose proof (binary_round_aux_rounded s (Zpos m) ez loc_Exact ltac:(lia)) as H1.
    cbn [Zdigits2] in H1. fold t in H1. specialize (H1 ltac:(lia)).
    replace (t <=? ez) with true by (symmetry; apply Z.leb_le; lia).
    replace (ez - t) with 0 by lia. rewrite Hd in H1.
    rewrite Z.pow_0_r, Z.div_1_r in H1. rewrite Z.mul_1_r. exact H1.
  - pose proof (binary_round_aux_rounded s (Zpos m) ez loc_Exact ltac:(lia)) as H1.
    cbn [Zdigits2] in H1. fold t in H1. specialize (H1 ltac:(lia)).
    replace (t <=? ez) with false by (symmetry; apply Z.leb_gt; lia).
    rewrite Hd in H1. exact H1.
  - pose proof (binary_round_aux_rounded s (Zpos (Pos.iter xO m d)) t loc_Exact
                  ltac:(lia)) as H1.
    cbn [Zdigits2] in H1. rewrite iter_xO_digits in H1.
    replace (Z.pos (digits2_pos m) + Z.pos d + t) with (Z.pos (digits2_pos m) + ez) in H1 by lia.
    fold t in H1. specialize (H1 ltac:(lia)).
    rewrite Z.sub_diag, Z.pow_0_r, Z.div_1_r in H1.
    rewrite iter_xO_value in H1 at 1.
    replace (t <=? ez) with true by (symmetry; apply Z.leb_le; lia).
    replace (ez - t) with (Zpos d) by lia. exact H1.
Qed.

Lemma binary_normalize_valid m ez s : valid (binary_normalize prec emax m ez s) = true.
Proof.
  destruct m as [|p|p]; cbn [binary_normalize]; [reflexivity| |];
    eapply rounded_valid; apply binary_round_rounded.
Qed.

Lemma add_valid x y : valid x = true -> valid y = true -> valid (add x y) = true.
Proof.
  destruct x as [[|]|[|]| |sx mx ex], y as [[|]|[|]| |sy my ey];
    intros Hx Hy; try reflexivity; try assumption.
  apply binary_normalize_valid.
Qed.

Lemma sub_valid x y : valid x = true -> valid y = true -> valid (sub x y) = true.
Proof.
  destruct x as [[|]|[|]| |sx mx ex], y as [[|]|[|]| |sy my ey];
    intros Hx Hy; try reflexivity; try assumption.
  apply binary_normalize_valid.
Qed.

Lemma shl_align_value m ex ez :
  ez <= ex -> Zpos (fst (shl_align m ex ez)) = Zpos m * 2 ^ (ex - ez).
Proof.
  intros Hle. unfold shl_align.
  destruct (ez - ex) as [|d|d] eqn:Hd; cbn [fst].
  - replace (ex - ez) with 0 by lia. lia.
  - lia.
  - rewrite iter_xO_value. replace (ex - ez) with (Zpos d) by lia. reflexivity.
Qed.

Lemma leb_refl x : is_nan x = false -> leb x x = true.
Proof.
  destruct x as [[|]|[|]| |[|] m e]; try discriminate; try reflexivity; intros _;
    unfold leb, SFleb, SFcompare; rewrite Z.compare_refl, Pos.compare_cont_refl;
    reflexivity.
Qed.

(** Adding a non-negative number never decreases a float64 that is itself
    non-negative. *)
Lemma add_ge_l x y :
  valid x = true -> nonneg x = true -> nonneg y = true ->
  is_nan (add x y) = false -> leb x (add x y) = true.
Proof.
  destruct x as [[|]|[|]| |[|] mx ex], y as [[|]|[|]| |[|] my ey];
    try discriminate; try reflexivity; intros Hx _ _ Hnan.
  - (* x + 0 *) apply leb_refl. reflexivity.
  - revert Hnan. unfold add, SFadd, cond_Zopp.
    set (ez := Z.min ex ey).
    pose proof (shl_align_value mx ex ez ltac:(lia)) as E1.
    pose proof (shl_align_value my ey ez ltac:(lia)) as E2.
    set (m1 := fst (shl_align mx ex ez)) in *.
    set (m2 := fst (shl_align my ey ez)) in *.
    change (Z.pos m1 + Z.pos m2) with (Zpos (m1 + m2)).
    cbn [binary_normalize].
    pose proof (binary_round_rounded false (m1 + m2) ez) as Hr.
    cbv zeta in Hr.
    set (t := fexp prec emax (Z.pos (digits2_pos (m1 + m2)) + ez)) in *.
    unfold valid, valid_binary, bounded in Hx.
    apply andb_prop in Hx. destruct Hx as [Hcan _].
    unfold canonical_mantissa in Hcan. apply Z.eqb_eq in Hcan.
    assert (H2pos : 0 < 2 ^ (ex - ez)) by (apply Z.pow_pos_nonneg; lia).
    assert (Hsum : Zpos mx * 2 ^ (ex - ez) <= Zpos (m1 + m2)) by lia.
    (* the sum has at least as many digits, counted from 2^0, as x *)
    assert (Hdig : Zpos (digits2_pos mx) + ex <= Zpos (digits2_pos (m1 + m2)) + ez).
    { change (Zpos (digits2_pos (m1 + m2))) with (Zdigits2 (Zpos (m1 + m2))).
      destruct (digits2_pos_bounds mx) as [Hl _].
      pose proof (Zdigits2_lower (Zpos (m1 + m2)) (Zpos (digits2_pos mx) - 1 + (ex - ez))
                    ltac:(lia)) as H.
      rewrite Z.pow_add_r in H by lia.
      assert (2 ^ (Z.pos (digits2_pos mx) - 1) * 2 ^ (ex - ez) <= Zpos mx * 2 ^ (ex - ez)).
      { apply Z.mul_le_mono_nonneg_r; lia. }
      specialize (H ltac:(lia)). lia. }
    assert (Hext : ex <= t).
    { rewrite <- Hcan. unfold t. apply fexp_le. exact Hdig. }
    set (M := if t <=? ez then Z.pos (m1 + m2) * 2 ^ (ez - t)
              else Z.pos (m1 + m2) / 2 ^ (t - ez)) in *.
    assert (HM : (t = ex -> Zpos mx <= M) /\ 0 < M).
    { unfold M. destruct (t <=? ez) eqn:Hte.
      - apply Z.leb_le in Hte. split.
        + intros Heq. assert (ez = ex) by lia.
          replace (ez - t) with 0 by lia. replace (ex - ez) with 0 in Hsum by lia.
          lia.
        + apply Z.mul_pos_pos; [lia | apply Z.pow_pos_nonneg; lia].
      - apply Z.leb_gt in Hte.
        assert (Hcase : t = ex -> Zpos mx <= Z.pos (m1 + m2) / 2 ^ (t - ez)).
        { intros Heq. rewrite Heq. apply Z.div_le_lower_bound; lia. }
        split; [exact Hcase|].
        destruct (Z.eq_dec t ex) as [Heq|Hne]; [specialize (Hcase Heq); lia|].
        assert (Ht : t = Zpos (digits2_pos (m1 + m2)) + ez - prec).
        { pose proof (fexp_ge_emin (Zpos (digits2_pos mx) + ex)).
          unfold t, fexp in *. lia. }
        apply Z.lt_le_trans with (2 ^ (prec - 1)); [reflexivity|].
        apply Z.div_le_lower_bound; [apply Z.pow_pos_nonneg; lia|].
        rewrite <- Z.pow_add_r by (unfold prec in *; lia).
        destruct (digits2_pos_bounds (m1 + m2)) as [Hl _].
        replace (t - ez + (prec - 1)) with (Zpos (digits2_pos (m1 + m2)) - 1) by lia.
        exact Hl. }
    destruct HM as [HM1 HM2].
    destruct Hr as [Hz|q e2 _ _ Hq|_]; [lia| |reflexivity].
    intros _. unfold leb, SFleb, SFcompare.
    destruct Hq as [[He Hq]|[He _]].
    + subst e2. destruct (Z.compare_spec ex t) as [Heq|Hlt|Hgt]; [|reflexivity|lia].
      specialize (HM1 (eq_sym Heq)).
      rewrite Pos.compare_cont_spec. cbn [Pos.switch_Eq].
      destruct (Pos.compare_spec mx q) as [| |Hgt]; try reflexivity. lia.
    + destruct (Z.compare_spec ex e2) as [Heq|Hlt|Hgt]; [lia|reflexivity|lia].
Qed.

Lemma canonical_cases m ex :
  canonical_mantissa prec emax m ex = true ->
  Zpos (digits2_pos m) <= prec /\ emin prec emax <= ex /\
  (Zpos (digits2_pos m) = prec \/ ex = emin prec emax).
Proof.
  unfold canonical_mantissa, fexp. intros H. apply Z.eqb_eq in H. lia.
Qed.

Lemma mul_valid x y : valid x = true -> valid y = true -> valid (mul x y) = true.
Proof.
  destruct x as [[|]|[|]| |sx mx ex], y as [[|]|[|]| |sy my ey];
    intros Hx Hy; try reflexivity.
  unfold mul, SFmul.
  eapply rounded_valid. apply binary_round_aux_rounded; [lia|].
  unfold valid, valid_binary, bounded in Hx, Hy.
  apply andb_prop in Hx, Hy. destruct Hx as [Hx _], Hy as [Hy _].
  apply canonical_cases in Hx, Hy.
  destruct (digits2_pos_bounds mx) as [Hlx _], (digits2_pos_bounds my) as [Hly _].
  assert (Hprod : 2 ^ (Zpos (digits2_pos mx) - 1 + (Zpos (digits2_pos my) - 1))
                  <= Zpos (mx * my)).
  { rewrite Z.pow_add_r by lia. rewrite Pos2Z.inj_mul.
    apply Z.mul_le_mono_nonneg; lia. }
  apply Zdigits2_lower in Hprod; [|lia].
  unfold fexp, emin, prec, emax in *. lia.
Qed.

Lemma div_valid x y : valid (div x y) = true.
Proof.
  destruct x as [[|]|[|]| |sx mx ex], y as [[|]|[|]| |sy my ey]; try reflexivity.
  unfold div, SFdiv, SFdiv_core_binary.
  set (z := Zdigits2 (Z.pos mx) + ex - (Zdigits2 (Z.pos my) + ey)).
  set (e' := Z.min (fexp prec emax z) (ex - ey)).
  set (s := ex - ey - e').
  set (m' := match s with Z0 => Z.pos mx | Zpos _ => Z.shiftl (Z.pos mx) s | Zneg _ => 0 end).
  assert (Hs : 0 <= s) by (unfold s, e'; lia).
  assert (Hm' : m' = Zpos mx * 2 ^ s).
  { unfold m'. destruct s as [|p|p] eqn:Es; [lia| |lia].
    apply Z.shiftl_mul_pow2. lia. }
  assert (Hq : fst (Z.div_eucl m' (Zpos my)) = m' / Zpos my) by reflexivity.
  destruct (Z.div_eucl m' (Z.pos my)) as [q r]. cbn [fst] in Hq.
  assert (H2s : 0 < 2 ^ s) by (apply Z.pow_pos_nonneg; lia).
  assert (Hq0 : 0 <= q) by (rewrite Hq; apply Z.div_pos; lia).
  eapply rounded_valid. apply binary_round_aux_rounded; [exact Hq0|].
  destruct (Z_le_gt_dec e' (emin prec emax)) as [Hle|Hgt].
  - pose proof (fexp_ge_emin (Zdigits2 q + e')). lia.
  - assert (He' : e' <= z - prec) by (unfold e', fexp in *; lia).
    destruct (digits2_pos_bounds mx) as [Hlx _], (digits2_pos_bounds my) as [_ Huy].
    cbn [Zdigits2] in z.
    assert (Hlow : 2 ^ (prec - 1) <= q).
    { rewrite Hq, Hm'. apply Z.div_le_lower_bound; [lia|].
      apply Z.le_trans with (2 ^ Zpos (digits2_pos my) * 2 ^ (prec - 1)).
      - apply Z.mul_le_mono_nonneg_r; [apply Z.pow_nonneg|]; lia.
      - rewrite <- Z.pow_add_r by (unfold prec; lia).
        apply Z.le_trans with (2 ^ (Zpos (digits2_pos mx) - 1) * 2 ^ s).
        + rewrite <- Z.pow_add_r by lia.
          apply Z.pow_le_mono_r; [lia|]. unfold s, z in *. lia.
        + apply Z.mul_le_mono_nonneg_r; lia. }
    apply Zdigits2_lower in Hlow; [|unfold prec; lia].
    unfold fexp. lia.
Qed.

Lemma abs_valid x : valid x = true -> valid (abs x) = true.
Proof. destruct x; intros H; try reflexivity; exact H. Qed.

(** ** Order *)

Lemma add_comm x y : add x y = add y x.
Proof.
  destruct x as [[|]|[|]| |sx mx ex], y as [[|]|[|]| |sy my ey]; try reflexivity.
  unfold add, SFadd. rewrite (Z.min_comm ey ex). f_equal. apply Z.add_comm.
Qed.

Lemma add_ge_r x y :
  valid y = true -> nonneg x = true -> nonneg y = true ->
  is_nan (add x y) = false -> leb y (add x y) = true.
Proof.
  intros Hv Hx Hy. rewrite add_comm. apply add_ge_l; assumption.
Qed.

Lemma leb_trans x y z :
  nonneg x = true -> nonneg y = true -> nonneg z = true ->
  leb x y = true -> leb y z = true -> leb x z = true.
Proof.
  destruct x as [[|]|[|]| |[|] mx ex], y as [[|]|[|]| |[|] my ey],
           z as [[|]|[|]| |[|] mz ez];
    try discriminate; try reflexivity; intros _ _ _.
  unfold leb, SFleb, SFcompare. rewrite !Pos.compare_cont_spec. cbn [Pos.switch_Eq].
  destruct (Z.compare_spec ex ey), (Z.compare_spec ey ez), (Z.compare_spec ex ez);
    try discriminate; try reflexivity; try lia; subst.
  destruct (Pos.compare_spec mx my), (Pos.compare_spec my mz), (Pos.compare_spec mx mz);
    try discriminate; try reflexivity; intros _ _; lia.
Qed.

(** ** Invariants of the error bound *)

Lemma macheps_nonneg : nonneg macheps = true.
Proof. reflexivity. Qed.

Lemma one_minus_macheps_nonneg : nonneg one_minus_macheps = true.
Proof. reflexivity. Qed.

Lemma SmallestNonzeroFloat64_nonneg : nonneg SmallestNonzeroFloat64 = true.
Proof. reflexivity. Qed.

Lemma zero_nonneg : nonneg zero = true.
Proof. reflexivity. Qed.

Create HintDb f64 discriminated.

#[local] Hint Resolve add_nonneg mul_nonneg div_nonneg abs_nonneg macheps_nonneg
  one_minus_macheps_nonneg SmallestNonzeroFloat64_nonneg zero_nonneg : f64.

#[local] Hint Resolve add_valid sub_valid mul_valid div_valid abs_valid : f64.

(** The increment the source adds for a result [v]. *)
Lemma increment_nonneg v :
  nonneg (div (mul macheps (abs v)) one_minus_macheps) = true.
Proof. auto with f64. Qed.

Lemma increment_valid v :
  valid (div (mul macheps (abs v)) one_minus_macheps) = true.
Proof. apply div_valid. Qed.

#[local] Hint Resolve increment_nonneg increment_valid : f64.

Ltac split_zero_test :=
  match goal with
  | |- context [if eqb ?v zero then _ else _] => destruct (eqb v zero)
  end.

Lemma step_nonneg s s' : nonneg (e s) = true -> step s s' -> nonneg (e s') = true.
Proof.
  intros Hs Hstep.
  destruct Hstep as [f|f|f|b Hb|b Hb|b Hb];
    [unfold AddFloat64 | unfold SubFloat64 | unfold MulFloat64Pred
    | unfold AddFloat64Pred | unfold SubFloat64Pred | unfold MulFloat64];
    cbv zeta; split_zero_test; cbn [e]; auto 8 with f64.
Qed.

Lemma run_nonneg c : nonneg (e (run c)) = true.
Proof.
  induction c as [n0|c IH f|c IH f|c IH f|c IHc d IHd|c IHc d IHd|c IHc d IHd];
    cbn [run]; try reflexivity;
    (apply (step_nonneg (run c)); [assumption | constructor; assumption]).
Qed.

Lemma run_valid c :
  chain_valid c = true -> valid (n (run c)) = true /\ valid (e (run c)) = true.
Proof.
  induction c as [n0|c IH f|c IH f|c IH f|c IHc d IHd|c IHc d IHd|c IHc d IHd];
    cbn [run chain_valid]; intros Hc.
  - split; [exact Hc | reflexivity].
  - apply andb_prop in Hc. destruct Hc as [Hc Hf]. destruct (IH Hc) as [Hn He].
    unfold AddFloat64. cbv zeta. split_zero_test; cbn [n e]; split; auto with f64.
  - apply andb_prop in Hc. destruct Hc as [Hc Hf]. destruct (IH Hc) as [Hn He].
    unfold SubFloat64. cbv zeta. split_zero_test; cbn [n e]; split; auto with f64.
  - apply andb_prop in Hc. destruct Hc as [Hc Hf]. destruct (IH Hc) as [Hn He].
    unfold MulFloat64Pred. cbv zeta. split_zero_test; cbn [n e]; split; auto 8 with f64.
  - apply andb_prop in Hc. destruct Hc as [Hc Hd].
    destruct (IHc Hc) as [Hn He], (IHd Hd) as [Hn' He'].
    unfold AddFloat64Pred. cbv zeta. split_zero_test; cbn [n e]; split; auto with f64.
  - apply andb_prop in Hc. destruct Hc as [Hc Hd].
    destruct (IHc Hc) as [Hn He], (IHd Hd) as [Hn' He'].
    unfold SubFloat64Pred. cbv zeta. split_zero_test; cbn [n e]; split; auto with f64.
  - apply andb_prop in Hc. destruct Hc as [Hc Hd].
    destruct (IHc Hc) as [Hn He], (IHd Hd) as [Hn' He'].
    unfold MulFloat64. cbv zeta. split_zero_test; cbn [n e]; split; auto 10 with f64.
Qed.

(** ** The formulas of the operations *)

Lemma one_minus_macheps_eq : sub Spec.one Spec.unitRoundoff = one_minus_macheps.
Proof. vm_compute. reflexivity. Qed.

Ltac by_branches :=
  cbv zeta; split_zero_test; reflexivity.

Lemma AddFloat64_computes s f :
  AddFloat64 s f
  = {| n := add (n s) f; e := add (e s) (Spec.increment (add (n s) f)) |}.
Proof.
  unfold AddFloat64, Spec.increment. rewrite one_minus_macheps_eq. by_branches.
Qed.

Lemma SubFloat64_computes s f :
  SubFloat64 s f
  = {| n := sub (n s) f; e := add (e s) (Spec.increment (sub (n s) f)) |}.
Proof.
  unfold SubFloat64, Spec.increment. rewrite one_minus_macheps_eq. by_branches.
Qed.

Lemma AddFloat64Pred_computes a b :
  AddFloat64Pred a b
  = {| n := add (n a) (n b);
       e := add (e a) (add (Spec.increment (add (n a) (n b))) (e b)) |}.
Proof.
  unfold AddFloat64Pred, Spec.increment. rewrite one_minus_macheps_eq. by_branches.
Qed.

Lemma SubFloat64Pred_computes a b :
  SubFloat64Pred a b
  = {| n := sub (n a) (n b);
       e := add (e a) (add (Spec.increment (sub (n a) (n b))) (e b)) |}.
Proof.
  unfold SubFloat64Pred, Spec.increment. rewrite one_minus_macheps_eq. by_branches.
Qed.

Lemma MulFloat64Pred_computes s f :
  MulFloat64Pred s f
  = {| n := mul (n s) f;
       e := add (e s) (add (Spec.increment (mul (n s) f)) (mul (e s) (abs f))) |}.
Proof.
  unfold MulFloat64Pred, Spec.increment. rewrite one_minus_macheps_eq. by_branches.
Qed.

Lemma MulFloat64_computes a b :
  MulFloat64 a b
  = {| n := mul (n a) (n b);
       e := add (e a)
                (add (add (Spec.increment (mul (n a) (n b))) (mul (e a) (abs (n b))))
                     (mul (e b) (abs (mul (n a) (n b))))) |}.
Proof.
  unfold MulFloat64, Spec.increment. rewrite one_minus_macheps_eq. by_branches.
Qed.

(** C8. Reading a freshly constructed scalar returns the number it was built
    from and the error bound 0. *)
Theorem GetValues_NewFloat64Pred (n0 : float64) :
  GetValues (NewFloat64Pred n0) = (n0, zero).
Proof. reflexivity. Qed.

(** C5. [AddFloat64] and [SubFloat64] return the sum (the difference) and add
    to the error bound the rounding increment of that result: the smallest
    positive float64 when the result is zero and
    [unitRoundoff * |v| / (1 - unitRoundoff)] otherwise.  Adding [f <> 0] to
    [Construct(0)] leaves exactly that quotient as error bound, and
    [Construct(5) - 5] has value 0 and the smallest positive float64 as error
    bound. *)
Theorem AddFloat64_SubFloat64_formula (s : Float64Pred) (f : float64) :
  AddFloat64 s f = Spec.AddScalar s f /\
  SubFloat64 s f = Spec.SubScalar s f /\
  (eqb f zero = false ->
   e (AddFloat64 (NewFloat64Pred zero) f)
   = div (mul Spec.unitRoundoff (abs f)) (sub Spec.one Spec.unitRoundoff)) /\
  SubFloat64 (NewFloat64Pred c_5) c_5 = {| n := zero; e := Spec.smallestPositive |}.
Proof.
  split; [apply AddFloat64_computes|].
  split; [apply SubFloat64_computes|].
  split; [|vm_compute; reflexivity].
  intros Hf. rewrite one_minus_macheps_eq.
  unfold AddFloat64, NewFloat64Pred. cbn [n e].
  rewrite (add_zero_l_nz f Hf), Hf. cbn [e].
  apply add_zero_l. apply increment_nonneg.
Qed.

Lemma AddFloat64_SubFloat64_formula_witness :
  eqb c_3 zero = false /\
  e (AddFloat64 (NewFloat64Pred zero) c_3)
  = div (mul Spec.unitRoundoff (abs c_3)) (sub Spec.one Spec.unitRoundoff).
Proof.
  split; [reflexivity|].
  apply (AddFloat64_SubFloat64_formula (NewFloat64Pred zero) c_3). reflexivity.
Defined.

(** C4, as the claim states it, fails: for a = 0 + 2 and b = 0 + 3 the sum
    [(a.e + b.e) + increment] differs from the error bound the code stores,
    and so it does for the difference of 0 + 2 and 0 + 5. *)
Lemma AddFloat64Pred_not_left_to_right :
  AddFloat64Pred (run ch_0_plus_2) (run ch_0_plus_3)
    <> Spec.AddTracked (run ch_0_plus_2) (run ch_0_plus_3) /\
  SubFloat64Pred (run ch_0_plus_2) (run ch_0_plus_5)
    <> Spec.SubTracked (run ch_0_plus_2) (run ch_0_plus_5).
Proof. split; vm_compute; discriminate. Qed.

(** C4, amended. [AddFloat64Pred] and [SubFloat64Pred] return the sum (the
    difference) of the values, and the error bound
    [a.e + (increment(value') + b.e)]: the increment and [b]'s bound are added
    first, [a]'s bound last. *)
Theorem AddFloat64Pred_SubFloat64Pred_formula (a b : Float64Pred) :
  AddFloat64Pred a b
  = {| n := add (n a) (n b);
       e := add (e a) (add (Spec.increment (add (n a) (n b))) (e b)) |} /\
  SubFloat64Pred a b
  = {| n := sub (n a) (n b);
       e := add (e a) (add (Spec.increment (sub (n a) (n b))) (e b)) |}.
Proof. split; [apply AddFloat64Pred_computes | apply SubFloat64Pred_computes]. Qed.

(** ** Multiplication *)

(** C3. [MulFloat64Pred] does not store [s.e * |f| + increment]: the update
    is [p.e += ...], so the old bound is added once more.  After
    [Construct(1)], [AddFloat64(2)] (value 3, bound e3), multiplying by 2
    gives the value 6 and the bound [e3 + (increment(6) + e3 * 2)], which is
    larger than the [e3 * 2 + increment(6)] of the claim. *)
Theorem MulFloat64Pred_adds_old_bound :
  let s := run ch_1_plus_2 in
  let r := MulFloat64Pred s c_2 in
  n s = c_3 /\ n r = c_6 /\
  e r = add (e s) (add (Spec.increment c_6) (mul (e s) c_2)) /\
  e (Spec.MulScalar s c_2) = add (mul (e s) c_2) (Spec.increment c_6) /\
  r <> Spec.MulScalar s c_2 /\
  ltb (e (Spec.MulScalar s c_2)) (e r) = true.
Proof. vm_compute. repeat split; discriminate. Qed.

(** C2. [MulFloat64] does not store
    [a.e * |b.n| + b.e * |a.n| + increment]: the old bound of [a] is added
    once more, and [a.n] already holds the product when [b.e] is scaled.  For
    a = 0 + 2 (bound e2) and b = Construct(3) the value is 6 and the bound is
    [e2 + ((increment(6) + e2 * 3) + 0 * 6)], larger than the
    [e2 * 3 + increment(6)] of the claim; for a = Construct(2) and b = 0 + 3
    (bound e3) the bound is [0 + ((increment(6) + 0 * 3) + e3 * 6)], where the claim
    has [e3 * 2]. *)
Theorem MulFloat64_adds_old_bound_and_scales_by_product :
  let a := run ch_0_plus_2 in
  let b := NewFloat64Pred c_3 in
  let a' := NewFloat64Pred c_2 in
  let b' := run ch_0_plus_3 in
  (n (MulFloat64 a b) = c_6 /\
   e (MulFloat64 a b)
   = add (e a) (add (add (Spec.increment c_6) (mul (e a) c_3)) (mul zero c_6)) /\
   e (Spec.MulTracked a b) = add (mul (e a) c_3) (Spec.increment c_6) /\
   MulFloat64 a b <> Spec.MulTracked a b /\
   ltb (e (Spec.MulTracked a b)) (e (MulFloat64 a b)) = true) /\
  (n (MulFloat64 a' b') = c_6 /\
   e (MulFloat64 a' b')
   = add zero (add (add (Spec.increment c_6) (mul zero c_3)) (mul (e b') c_6)) /\
   e (Spec.MulTracked a' b') = add (mul (e b') c_2) (Spec.increment c_6) /\
   MulFloat64 a' b' <> Spec.MulTracked a' b').
Proof. vm_compute. repeat split; discriminate. Qed.

(** ** Soundness *)

(** C1. The bound is not sound.  5 * ((2^53 + 1) - 2^53): the stored value
    is 0, the exact result 5, and the stored error bound is the smallest
    positive float64, because [MulFloat64] scales [b.e] by the product (here
    0) and not by [a.n].  Nor is it sound where a product underflows:
    1.4 * 2^-1074 is stored as 2^-1074 with the error bound 0. *)
Theorem error_bound_unsound :
  (chain_valid ch_five_times = true /\
   run ch_lost_one = {| n := zero; e := S754_finite false 4503599627370497 (-51) |} /\
   run ch_five_times = {| n := zero; e := SmallestNonzeroFloat64 |} /\
   (exists t, exact ch_five_times = Some t /\ (t == 5)%Q) /\
   ~ error_bound_sound ch_five_times) /\
  (chain_valid ch_underflow = true /\
   run ch_underflow = {| n := SmallestNonzeroFloat64; e := zero |} /\
   ~ error_bound_sound ch_underflow).
Proof.
  split.
  - split; [reflexivity|].
    split; [vm_compute; reflexivity|].
    split; [vm_compute; reflexivity|].
    split.
    + eexists. split; [reflexivity|]. vm_compute. reflexivity.
    + intros H. specialize (H _ _ _ eq_refl eq_refl eq_refl).
      vm_compute in H. apply H. reflexivity.
  - split; [reflexivity|].
    split; [vm_compute; reflexivity|].
    intros H. specialize (H _ _ _ eq_refl eq_refl eq_refl).
    vm_compute in H. apply H. reflexivity.
Qed.

(** ** Sign of the error bound *)

(** C6, as the claim states it, fails: (2^1000 * 2^1000) * 0 is built from
    finite float64 arguments and its error bound is NaN, which is not [>= 0]. *)
Lemma errorBound_nan_reachable :
  chain_valid ch_nan = true /\
  e (run ch_nan) = S754_nan /\
  leb zero (e (run ch_nan)) = false.
Proof. vm_compute. repeat split. Qed.

(** C6, amended. The error bound of every reachable scalar is NaN or
    [>= 0]; its sign bit is never set. *)
Theorem errorBound_never_negative (c : chain) :
  nonneg (e (run c)) = true /\
  (is_nan (e (run c)) = true \/ leb zero (e (run c)) = true).
Proof.
  pose proof (run_nonneg c) as H. split; [exact H|].
  destruct (e (run c)) as [[|]|[|]| |[|] m ex]; try discriminate;
    (left; reflexivity) || (right; reflexivity).
Qed.

(** ** Monotonicity *)

(** C7, as the claim states it, fails: 2^1000 * 2^1000 has the error bound
    +Inf, and multiplying it by 0 gives the error bound NaN, which is not
    [>=] the former bound. *)
Lemma errorBound_not_monotone :
  chain_valid ch_overflow = true /\ valid zero = true /\
  e (run ch_overflow) = pinf /\
  e (MulFloat64Pred (run ch_overflow) zero) = S754_nan /\
  leb (e (run ch_overflow)) (e (MulFloat64Pred (run ch_overflow) zero)) = false.
Proof. vm_compute. repeat split. Qed.

Lemma add_nondecreasing x y :
  valid x = true -> nonneg x = true -> nonneg y = true ->
  is_nan (add x y) = true \/ leb x (add x y) = true.
Proof.
  intros Hv Hx Hy. destruct (is_nan (add x y)) eqn:Hn; [left; reflexivity|].
  right. apply add_ge_l; assumption.
Qed.

Lemma step_monotone (s s' : Float64Pred) :
  valid (e s) = true -> nonneg (e s) = true -> step s s' ->
  is_nan (e s') = true \/ leb (e s) (e s') = true.
Proof.
  intros Hv Hs Hstep.
  destruct Hstep as [f|f|f|b Hb|b Hb|b Hb];
    [rewrite AddFloat64_computes | rewrite SubFloat64_computes
    | rewrite MulFloat64Pred_computes | rewrite AddFloat64Pred_computes
    | rewrite SubFloat64Pred_computes | rewrite MulFloat64_computes];
    cbn [e]; apply add_nondecreasing; try assumption;
    unfold Spec.increment; rewrite one_minus_macheps_eq;
    split_zero_test; auto 8 with f64.
Qed.

(** Every reachable scalar qualifies: along a chain of float64 arguments the
    error bound stays a float64 that is not negative. *)
Lemma reachable_errorBound c :
  chain_valid c = true -> valid (e (run c)) = true /\ nonneg (e (run c)) = true.
Proof.
  intros Hc. split; [apply (run_valid c Hc) | apply run_nonneg].
Qed.

Lemma leb_not_nan_l x y : leb x y = true -> is_nan x = false.
Proof. destruct x; try reflexivity. discriminate. Qed.

Lemma monotone_trans x y z :
  nonneg x = true -> nonneg y = true -> nonneg z = true ->
  is_nan y = true \/ leb x y = true ->
  is_nan z = true \/ leb y z = true ->
  is_nan z = true \/ leb x z = true.
Proof.
  intros Hx Hy Hz Hxy [Hnan|Hyz]; [left; exact Hnan|].
  right. destruct Hxy as [Hnan|Hxy].
  - rewrite (leb_not_nan_l _ _ Hyz) in Hnan. discriminate.
  - apply leb_trans with y; assumption.
Qed.

Lemma extends_monotone c c' :
  chain_valid c' = true -> extends c c' ->
  is_nan (e (run c')) = true \/ leb (e (run c)) (e (run c')) = true.
Proof.
  intros Hc' Hext.
  induction Hext as [|c0 f H IH|c0 f H IH|c0 f H IH|c0 d H IH|c0 d H IH|c0 d H IH].
  (* one more operation on the result of [c0] *)
  2-7: cbn [chain_valid] in Hc'; apply andb_prop in Hc'; destruct Hc' as [Hc0 _];
    destruct (reachable_errorBound c0 Hc0) as [Hv Hn];
    apply monotone_trans with (e (run c0)); try apply run_nonneg;
    [apply IH; exact Hc0|];
    apply step_monotone; [assumption | assumption | constructor; try apply run_nonneg].
  (* no operation *)
  destruct (is_nan (e (run c))) eqn:Hn; [left; reflexivity|].
  right. apply leb_refl. exact Hn.
Qed.

(** C7, amended. For a scalar whose error bound is a float64 that is not
    negative, one operation (a tracked second operand having an error bound
    that is not negative either) gives an error bound that is NaN or [>=]
    the former one; hence along any sequence of operations on float64
    arguments the error bound of a later scalar is NaN or [>=] that of an
    earlier one. *)
Theorem errorBound_monotone (s s' : Float64Pred) (c c' : chain) :
  (valid (e s) = true -> nonneg (e s) = true -> step s s' ->
   is_nan (e s') = true \/ leb (e s) (e s') = true) /\
  (chain_valid c' = true -> extends c c' ->
   is_nan (e (run c')) = true \/ leb (e (run c)) (e (run c')) = true).
Proof.
  split; [apply step_monotone | apply extends_monotone].
Qed.

Lemma errorBound_monotone_witness :
  (valid (e (run ch_1_plus_2)) = true /\
   nonneg (e (run ch_1_plus_2)) = true /\
   (is_nan (e (MulFloat64Pred (run ch_1_plus_2) c_2)) = true \/
    leb (e (run ch_1_plus_2)) (e (MulFloat64Pred (run ch_1_plus_2) c_2)) = true)) /\
  (chain_valid (MulP (SubF ch_1_plus_2 c_5) ch_0_plus_3) = true /\
   (is_nan (e (run (MulP (SubF ch_1_plus_2 c_5) ch_0_plus_3))) = true \/
    leb (e (run ch_1_plus_2)) (e (run (MulP (SubF ch_1_plus_2 c_5) ch_0_plus_3))) = true)).
Proof.
  split.
  - split; [reflexivity|]. split; [reflexivity|].
    apply (proj1 (errorBound_monotone (run ch_1_plus_2)
                    (MulFloat64Pred (run ch_1_plus_2) c_2) ch_1_plus_2 ch_1_plus_2));
      [reflexivity | reflexivity | apply step_MulFloat64Pred].
  - split; [reflexivity|].
    apply (proj2 (errorBound_monotone (run ch_1_plus_2) (run ch_1_plus_2)
                    ch_1_plus_2 (MulP (SubF ch_1_plus_2 c_5) ch_0_plus_3)));
      [reflexivity | apply extends_MulP, extends_SubF, extends_refl].
Defined.

(** ** Chained multiplication *)

Lemma increment_spec_nonneg v : nonneg (Spec.increment v) = true.
Proof.
  unfold Spec.increment. rewrite one_minus_macheps_eq.
  destruct (eqb v zero); auto with f64.
Qed.

Lemma increment_spec_valid v : valid (Spec.increment v) = true.
Proof.
  unfold Spec.increment. destruct (eqb v zero); [reflexivity | apply div_valid].
Qed.

Lemma add_zero_r x : nonneg x = true -> add x zero = x.
Proof. destruct x as [[|]|[|]| |[|] mx ex]; simpl; try discriminate; reflexivity. Qed.

Lemma mul_zero_abs x : mul zero (abs x) = zero \/ mul zero (abs x) = S754_nan.
Proof. destruct x; simpl; auto. Qed.

Lemma add_not_nan x y :
  is_nan (add x y) = false -> is_nan x = false /\ is_nan y = false.
Proof.
  destruct x as [[|]|[|]| |sx mx ex], y as [[|]|[|]| |sy my ey];
    simpl; try discriminate; auto.
Qed.

(** A product by a plain float64 starting from an exact number stores the
    rounding increment of its value, unless the factor is infinite or NaN. *)
Lemma MulFloat64Pred_New_bound n0 f :
  is_nan (e (MulFloat64Pred (NewFloat64Pred n0) f)) = false ->
  e (MulFloat64Pred (NewFloat64Pred n0) f) = Spec.increment (mul n0 f).
Proof.
  rewrite MulFloat64Pred_computes. unfold NewFloat64Pred. cbn [n e]. intros Hn.
  destruct (mul_zero_abs f) as [Hz|Hz]; rewrite Hz in *.
  - rewrite add_zero_r by apply increment_spec_nonneg.
    apply add_zero_l. apply increment_spec_nonneg.
  - apply add_not_nan in Hn. destruct Hn as [_ Hn].
    apply add_not_nan in Hn. destruct Hn as [_ Hn]. discriminate.
Qed.

(** C9, as the claim states it, fails.  With n = 2 and a = b = 2^600 every
    argument is finite, a * b overflows, the chained bound is +Inf and the
    single-step bound is NaN.  With n = 1.4, a = 2^-1074 and b = 2^1000 the
    first product underflows to 2^-1074, the chained value is 2^-74 and its
    bound 2^-126 (1 + 2^-52), while the single step has the value
    1.4 * 2^-74 and a larger bound. *)
Lemma chained_bound_below_single :
  (valid c_2 = true /\ valid c_2p600 = true /\
   run (chained c_2 c_2p600 c_2p600) = {| n := pinf; e := pinf |} /\
   run (single c_2 c_2p600 c_2p600) = {| n := pinf; e := S754_nan |} /\
   leb (e (run (single c_2 c_2p600 c_2p600)))
       (e (run (chained c_2 c_2p600 c_2p600))) = false) /\
  (valid c_1_4 = true /\ valid SmallestNonzeroFloat64 = true /\ valid c_2p1000 = true /\
   run (chained c_1_4 SmallestNonzeroFloat64 c_2p1000)
   = {| n := S754_finite false 4503599627370496 (-126);
        e := S754_finite false 4503599627370497 (-178) |} /\
   run (single c_1_4 SmallestNonzeroFloat64 c_2p1000)
   = {| n := S754_finite false 6305039478318694 (-126);
        e := S754_finite false 6305039478318695 (-178) |} /\
   leb (e (run (single c_1_4 SmallestNonzeroFloat64 c_2p1000)))
       (e (run (chained c_1_4 SmallestNonzeroFloat64 c_2p1000))) = false).
Proof. vm_compute. repeat split. Qed.

(** When both orders give the same value and neither error bound is NaN,
    the chained bound is [>=] the single-step bound. *)
Lemma chained_ge_single_same_value (n0 a b : float64) :
  valid a = true -> valid b = true ->
  n (run (chained n0 a b)) = n (run (single n0 a b)) ->
  is_nan (e (run (single n0 a b))) = false ->
  is_nan (e (run (chained n0 a b))) = false ->
  leb (e (run (single n0 a b))) (e (run (chained n0 a b))) = true.
Proof.
  unfold chained, single. cbn [run]. intros Ha Hb Hval Hsingle Hchained.
  rewrite (MulFloat64Pred_New_bound _ _ Hsingle).
  rewrite (MulFloat64Pred_computes (NewFloat64Pred n0) (mul a b)) in Hval.
  unfold NewFloat64Pred at 2 in Hval. cbn [n] in Hval. rewrite <- Hval. clear Hval Hsingle.
  set (p := MulFloat64Pred (NewFloat64Pred n0) a) in *.
  assert (Hp : valid (e p) = true /\ nonneg (e p) = true).
  { unfold p. rewrite MulFloat64Pred_computes. unfold NewFloat64Pred. cbn [n e].
    split.
    - pose proof (increment_spec_valid (mul n0 a)). auto 6 with f64.
    - pose proof (increment_spec_nonneg (mul n0 a)). auto 6 with f64. }
  destruct Hp as [Hpv Hpn].
  rewrite MulFloat64Pred_computes in *. cbn [n e] in *.
  set (v := mul (n p) b) in *.
  pose proof (increment_spec_valid v) as HIv.
  pose proof (increment_spec_nonneg v) as HIn.
  destruct (add_not_nan _ _ Hchained) as [_ Hz].
  apply leb_trans with (add (Spec.increment v) (mul (e p) (abs b)));
    auto with f64.
  - apply add_ge_l; auto with f64.
  - apply add_ge_r; auto with f64.
Qed.

(** ** Product with a zero value *)

(** C10, as the claim states it, fails: b = 2^600 * (0 + 2^300) - 2^900 has
    the value 0 and the error bound +Inf; its product with a = Construct(1)
    has the error bound NaN, not [a.e + SmallestNonzeroFloat64]. *)
Lemma zero_product_nan :
  chain_valid ch_zero_inf = true /\
  run ch_zero_inf = {| n := zero; e := pinf |} /\
  is_finite (n (NewFloat64Pred c_1)) = true /\
  eqb (n (run ch_zero_inf)) zero = true /\
  e (MulFloat64 (NewFloat64Pred c_1) (run ch_zero_inf)) = S754_nan /\
  e (MulFloat64 (NewFloat64Pred c_1) (run ch_zero_inf))
    <> add (e (NewFloat64Pred c_1)) SmallestNonzeroFloat64.
Proof. vm_compute. repeat split. discriminate. Qed.

(** C10, amended. When [a.n] is finite and [b.n == 0], the product has a
    zero value; its error bound is [a.e + SmallestNonzeroFloat64], whatever
    [b.e] is, when [a.e] and [b.e] are finite, and NaN when one of them is
    infinite or NaN. *)
Theorem MulFloat64_zero_product (a b : Float64Pred) :
  is_finite (n a) = true -> eqb (n b) zero = true ->
  eqb (n (MulFloat64 a b)) zero = true /\
  e (MulFloat64 a b)
  = if is_finite (e a) && is_finite (e b)
    then add (e a) SmallestNonzeroFloat64
    else S754_nan.
Proof.
  destruct a as [an ae], b as [bn be]. cbn [n e].
  intros Han Hbn.
  destruct bn as [sb|[|]| |[|] mb eb]; try (vm_compute in Hbn; discriminate).
  unfold MulFloat64. cbn [n e].
  destruct an as [sa| | |sa ma ea]; try (cbn in Han; discriminate);
    destruct ae as [s1|[|]| |s1 m1 e1], be as [s2|[|]| |s2 m2 e2];
    split; reflexivity.
Qed.

Lemma MulFloat64_zero_product_witness :
  is_finite (n (run ch_1_plus_2)) = true /\
  eqb (n (run ch_lost_one)) zero = true /\
  eqb (n (MulFloat64 (run ch_1_plus_2) (run ch_lost_one))) zero = true /\
  e (MulFloat64 (run ch_1_plus_2) (run ch_lost_one))
  = add (e (run ch_1_plus_2)) SmallestNonzeroFloat64.
Proof.
  repeat (split; [reflexivity|]).
  apply (MulFloat64_zero_product (run ch_1_plus_2) (run ch_lost_one)); reflexivity.
Defined.

(** ** Values and error tracking *)

(** The value a chain stores is the one plain float64 arithmetic computes:
    the error bound never feeds back into the value. *)
Theorem tracked_value_is_plain (c : chain) : n (run c) = plain c.
Proof.
  induction c as [n0|c IH f|c IH f|c IH f|c IHc d IHd|c IHc d IHd|c IHc d IHd];
    cbn [run plain]; try reflexivity;
    [rewrite AddFloat64_computes | rewrite SubFloat64_computes
    | rewrite MulFloat64Pred_computes | rewrite AddFloat64Pred_computes
    | rewrite SubFloat64Pred_computes | rewrite MulFloat64_computes];
    cbn [n]; congruence.
Qed.

(** ** Subtraction and negation *)

Lemma sub_add_opp x y : sub x y = add x (opp y).
Proof.
  destruct x as [[|]|[|]| |sx mx ex], y as [[|]|[|]| |sy my ey]; try reflexivity.
  unfold sub, add, opp, SFsub, SFadd, SFopp. f_equal.
  destruct sy; unfold cond_Zopp; cbn [negb]; lia.
Qed.

(** Subtracting [f] is adding [-f], and subtracting a tracked number is
    adding the one with the negated value: same value, same error bound. *)
Theorem Sub_is_Add_of_negation (p b : Float64Pred) (f : float64) :
  SubFloat64 p f = AddFloat64 p (opp f) /\
  SubFloat64Pred p b = AddFloat64Pred p (negated b).
Proof.
  unfold SubFloat64, AddFloat64, SubFloat64Pred, AddFloat64Pred, negated.
  cbn [n e]. rewrite !sub_add_opp. split; reflexivity.
Qed.

Lemma binary_round_aux_opp s m ex l :
  binary_round_aux prec emax (negb s) m ex l
  = SFopp (binary_round_aux prec emax s m ex l).
Proof.
  unfold binary_round_aux.
  destruct (shr_fexp prec emax m ex l) as [mrs e1].
  destruct (shr_fexp prec emax _ e1 loc_Exact) as [mrs2 e2].
  destruct (shr_m mrs2); try reflexivity.
  destruct (e2 <=? emax - prec); reflexivity.
Qed.

Lemma mul_opp_r x y : mul x (opp y) = opp (mul x y).
Proof.
  destruct x as [[|]|[|]| |[|] mx ex], y as [[|]|[|]| |[|] my ey]; try reflexivity;
    unfold mul, opp, SFmul; cbn [SFopp negb xorb].
  - apply (binary_round_aux_opp false).
  - apply (binary_round_aux_opp true).
  - apply (binary_round_aux_opp true).
  - apply (binary_round_aux_opp false).
Qed.

Lemma abs_opp x : abs (opp x) = abs x.
Proof. destruct x; reflexivity. Qed.

Lemma eqb_opp_zero x : eqb (opp x) zero = eqb x zero.
Proof. destruct x as [[|]|[|]| |[|] mx ex]; reflexivity. Qed.

(** The error bound of a product depends on the factor only through its
    magnitude: multiplying by [-f] (by the tracked number with the negated
    value) gives the negated value and the same error bound. *)
Theorem Mul_by_negation (p b : Float64Pred) (f : float64) :
  MulFloat64Pred p (opp f) = negated (MulFloat64Pred p f) /\
  MulFloat64 p (negated b) = negated (MulFloat64 p b).
Proof.
  unfold MulFloat64Pred, MulFloat64, negated. cbn [n e].
  rewrite !mul_opp_r, !abs_opp, !eqb_opp_zero.
  split; split_zero_test; reflexivity.
Qed.

(** ** Fresh operands *)

Lemma mul_zero_abs_finite x : is_finite x = true -> mul zero (abs x) = zero.
Proof. destruct x; try discriminate; reflexivity. Qed.

Lemma mul_zero_abs_not_finite x : is_finite x = false -> mul zero (abs x) = S754_nan.
Proof. destruct x; try discriminate; reflexivity. Qed.

Lemma add_nan_r x : add x S754_nan = S754_nan.
Proof. destruct x; reflexivity. Qed.

(** A tracked second operand that was just constructed from [f] acts as the
    plain number [f]: for sums and differences always, for products when the
    error bound of the receiver is not negative and the product is finite. *)
Theorem fresh_operand_is_plain (a : Float64Pred) (f : float64) :
  AddFloat64Pred a (NewFloat64Pred f) = AddFloat64 a f /\
  SubFloat64Pred a (NewFloat64Pred f) = SubFloat64 a f /\
  (nonneg (e a) = true -> is_finite (mul (n a) f) = true ->
   MulFloat64 a (NewFloat64Pred f) = MulFloat64Pred a f).
Proof.
  rewrite AddFloat64Pred_computes, SubFloat64Pred_computes, AddFloat64_computes,
    SubFloat64_computes, MulFloat64_computes, MulFloat64Pred_computes.
  unfold NewFloat64Pred. cbn [n e].
  rewrite !add_zero_r by apply increment_spec_nonneg.
  split; [reflexivity|]. split; [reflexivity|].
  intros Ha Hfin. rewrite (mul_zero_abs_finite _ Hfin).
  rewrite add_zero_r; [reflexivity|].
  pose proof (increment_spec_nonneg (mul (n a) f)). auto with f64.
Qed.

Lemma fresh_operand_is_plain_witness :
  nonneg (e (run ch_1_plus_2)) = true /\
  is_finite (mul (n (run ch_1_plus_2)) c_5) = true /\
  MulFloat64 (run ch_1_plus_2) (NewFloat64Pred c_5) = MulFloat64Pred (run ch_1_plus_2) c_5.
Proof.
  split; [reflexivity|]. split; [reflexivity|].
  apply (fresh_operand_is_plain (run ch_1_plus_2) c_5); reflexivity.
Defined.

(** An operation on freshly constructed scalars stores exactly the rounding
    increment of its result ("if this is not a chained multiplication p.e
    will be 0, making that part irrelevant"), except that a product stores
    NaN when the factor is infinite or NaN (tracked factors: when the second
    factor or the product is). *)
Theorem first_operation_bound (n0 f : float64) :
  e (AddFloat64 (NewFloat64Pred n0) f) = Spec.increment (add n0 f) /\
  e (SubFloat64 (NewFloat64Pred n0) f) = Spec.increment (sub n0 f) /\
  e (AddFloat64Pred (NewFloat64Pred n0) (NewFloat64Pred f)) = Spec.increment (add n0 f) /\
  e (SubFloat64Pred (NewFloat64Pred n0) (NewFloat64Pred f)) = Spec.increment (sub n0 f) /\
  e (MulFloat64Pred (NewFloat64Pred n0) f)
  = (if is_finite f then Spec.increment (mul n0 f) else S754_nan) /\
  e (MulFloat64 (NewFloat64Pred n0) (NewFloat64Pred f))
  = (if is_finite f && is_finite (mul n0 f) then Spec.increment (mul n0 f) else S754_nan).
Proof.
  rewrite AddFloat64Pred_computes, SubFloat64Pred_computes, AddFloat64_computes,
    SubFloat64_computes, MulFloat64_computes, MulFloat64Pred_computes.
  unfold NewFloat64Pred. cbn [n e].
  rewrite !add_zero_r by apply increment_spec_nonneg.
  rewrite !add_zero_l by apply increment_spec_nonneg.
  repeat (split; [reflexivity|]).
  destruct (is_finite f) eqn:Hf.
  - rewrite (mul_zero_abs_finite _ Hf).
    rewrite !add_zero_r by apply increment_spec_nonneg.
    rewrite !add_zero_l by apply increment_spec_nonneg.
    split; [reflexivity|]. cbn [andb].
    destruct (is_finite (mul n0 f)) eqn:Hp.
    + rewrite (mul_zero_abs_finite _ Hp).
      rewrite add_zero_r by apply increment_spec_nonneg.
      apply add_zero_l, increment_spec_nonneg.
    + rewrite (mul_zero_abs_not_finite _ Hp). rewrite add_nan_r. reflexivity.
  - rewrite (mul_zero_abs_not_finite _ Hf). rewrite !add_nan_r.
    split; reflexivity.
Qed.

(** ** Infinities and NaN *)

Lemma add_finite_inv x y :
  is_finite (add x y) = true -> is_finite x = true /\ is_finite y = true.
Proof.
  destruct x as [[|]|[|]| |sx mx ex], y as [[|]|[|]| |sy my ey];
    try discriminate; split; reflexivity.
Qed.

Lemma sub_finite_inv x y :
  is_finite (sub x y) = true -> is_finite x = true /\ is_finite y = true.
Proof.
  destruct x as [[|]|[|]| |sx mx ex], y as [[|]|[|]| |sy my ey];
    try discriminate; split; reflexivity.
Qed.

Lemma mul_finite_inv x y :
  is_finite (mul x y) = true -> is_finite x = true /\ is_finite y = true.
Proof.
  destruct x as [[|]|[|]| |sx mx ex], y as [[|]|[|]| |sy my ey];
    try discriminate; split; reflexivity.
Qed.

Lemma div_finite_inv x y : is_finite (div x y) = true -> is_finite x = true.
Proof.
  destruct x as [[|]|[|]| |sx mx ex], y as [[|]|[|]| |sy my ey];
    try discriminate; reflexivity.
Qed.

Lemma abs_finite x : is_finite (abs x) = is_finite x.
Proof. destruct x; reflexivity. Qed.

Lemma increment_finite_inv v :
  is_finite (Spec.increment v) = true -> is_finite v = true.
Proof.
  unfold Spec.increment. destruct (eqb v zero) eqn:Hz.
  - intros _. destruct v as [[|]|[|]| |[|] mv ev]; try discriminate; reflexivity.
  - intros H. apply div_finite_inv, mul_finite_inv in H.
    rewrite abs_finite in H. apply H.
Qed.

(** Collects what the finiteness of [H]'s float64 says about its operands. *)
Ltac finite_parts H :=
  lazymatch type of H with
  | is_finite (add _ _) = true =>
      let H1 := fresh "Hfin" in let H2 := fresh "Hfin" in
      destruct (add_finite_inv _ _ H) as [H1 H2]; finite_parts H1; finite_parts H2
  | is_finite (sub _ _) = true =>
      let H1 := fresh "Hfin" in let H2 := fresh "Hfin" in
      destruct (sub_finite_inv _ _ H) as [H1 H2]; finite_parts H1; finite_parts H2
  | is_finite (mul _ _) = true =>
      let H1 := fresh "Hfin" in let H2 := fresh "Hfin" in
      destruct (mul_finite_inv _ _ H) as [H1 H2]; finite_parts H1; finite_parts H2
  | is_finite (Spec.increment _) = true =>
      let H1 := fresh "Hfin" in
      pose proof (increment_finite_inv _ H) as H1; finite_parts H1
  | is_finite (abs _) = true => rewrite abs_finite in H
  | _ => idtac
  end.

(** A finite error bound certifies finite data: when the error bound of a
    result is finite, so are its value, the former bound and every value and
    bound that went into the operation.  An overflow or a NaN is therefore
    always visible in the error bound. *)
Theorem finite_bound_finite_data (p b : Float64Pred) (f : float64) :
  (is_finite (e (AddFloat64 p f)) = true ->
   is_finite (n (AddFloat64 p f)) = true /\
   is_finite (n p) = true /\ is_finite (e p) = true /\ is_finite f = true) /\
  (is_finite (e (SubFloat64 p f)) = true ->
   is_finite (n (SubFloat64 p f)) = true /\
   is_finite (n p) = true /\ is_finite (e p) = true /\ is_finite f = true) /\
  (is_finite (e (MulFloat64Pred p f)) = true ->
   is_finite (n (MulFloat64Pred p f)) = true /\
   is_finite (n p) = true /\ is_finite (e p) = true /\ is_finite f = true) /\
  (is_finite (e (AddFloat64Pred p b)) = true ->
   is_finite (n (AddFloat64Pred p b)) = true /\
   is_finite (n p) = true /\ is_finite (e p) = true /\
   is_finite (n b) = true /\ is_finite (e b) = true) /\
  (is_finite (e (SubFloat64Pred p b)) = true ->
   is_finite (n (SubFloat64Pred p b)) = true /\
   is_finite (n p) = true /\ is_finite (e p) = true /\
   is_finite (n b) = true /\ is_finite (e b) = true) /\
  (is_finite (e (MulFloat64 p b)) = true ->
   is_finite (n (MulFloat64 p b)) = true /\
   is_finite (n p) = true /\ is_finite (e p) = true /\
   is_finite (n b) = true /\ is_finite (e b) = true).
Proof.
  rewrite AddFloat64Pred_computes, SubFloat64Pred_computes, AddFloat64_computes,
    SubFloat64_computes, MulFloat64_computes, MulFloat64Pred_computes.
  cbn [n e].
  repeat match goal with |- _ /\ _ => split end;
    intros H; finite_parts H; repeat split; assumption.
Qed.

Lemma finite_bound_finite_data_witness :
  is_finite (e (MulFloat64 (run ch_1_plus_2) (run ch_0_plus_3))) = true /\
  is_finite (n (MulFloat64 (run ch_1_plus_2) (run ch_0_plus_3))) = true /\
  is_finite (n (run ch_1_plus_2)) = true /\ is_finite (e (run ch_1_plus_2)) = true /\
  is_finite (n (run ch_0_plus_3)) = true /\ is_finite (e (run ch_0_plus_3)) = true.
Proof.
  split; [reflexivity|].
  apply (finite_bound_finite_data (run ch_1_plus_2) (run ch_0_plus_3) c_1).
  reflexivity.
Defined.

Lemma is_nan_eq x : is_nan x = true -> x = S754_nan.
Proof. destruct x; try discriminate; reflexivity. Qed.

Lemma add_nan_l x : add S754_nan x = S754_nan.
Proof. reflexivity. Qed.

Lemma sub_nan_l x : sub S754_nan x = S754_nan.
Proof. reflexivity. Qed.

Lemma sub_nan_r x : sub x S754_nan = S754_nan.
Proof. destruct x; reflexivity. Qed.

Lemma mul_nan_l x : mul S754_nan x = S754_nan.
Proof. reflexivity. Qed.

Lemma mul_nan_r x : mul x S754_nan = S754_nan.
Proof. destruct x; reflexivity. Qed.

Lemma abs_nan : abs S754_nan = S754_nan.
Proof. reflexivity. Qed.

Lemma increment_nan : Spec.increment S754_nan = S754_nan.
Proof. vm_compute. reflexivity. Qed.

Create Rewrite HintDb nan.

#[local] Hint Rewrite add_nan_l add_nan_r sub_nan_l sub_nan_r mul_nan_l mul_nan_r
  abs_nan increment_nan : nan.

(** Rewrites the float64 that [H] says is NaN and propagates it. *)
Ltac by_nan H := apply is_nan_eq in H; rewrite H; autorewrite with nan; reflexivity.

(** A NaN is never lost: when a value, an error bound or the plain argument
    that goes into an operation is NaN, the error bound of the result is
    NaN. *)
Theorem nan_reaches_bound (p b : Float64Pred) (f : float64) :
  (is_nan (n p) || is_nan (e p) || is_nan f = true ->
   is_nan (e (AddFloat64 p f)) = true /\
   is_nan (e (SubFloat64 p f)) = true /\
   is_nan (e (MulFloat64Pred p f)) = true) /\
  (is_nan (n p) || is_nan (e p) || is_nan (n b) || is_nan (e b) = true ->
   is_nan (e (AddFloat64Pred p b)) = true /\
   is_nan (e (SubFloat64Pred p b)) = true /\
   is_nan (e (MulFloat64 p b)) = true).
Proof.
  rewrite AddFloat64Pred_computes, SubFloat64Pred_computes, AddFloat64_computes,
    SubFloat64_computes, MulFloat64_computes, MulFloat64Pred_computes.
  cbn [n e]. split; intros H.
  - apply orb_true_iff in H. destruct H as [H|H]; [apply orb_true_iff in H; destruct H as [H|H]|];
      repeat split; by_nan H.
  - apply orb_true_iff in H. destruct H as [H|H];
      [apply orb_true_iff in H; destruct H as [H|H];
       [apply orb_true_iff in H; destruct H as [H|H]|]|];
      repeat split; by_nan H.
Qed.

Lemma nan_reaches_bound_witness :
  is_nan (n (run ch_nan)) || is_nan (e (run ch_nan)) || is_nan c_1 = true /\
  is_nan (e (AddFloat64 (run ch_nan) c_1)) = true /\
  is_nan (e (SubFloat64 (run ch_nan) c_1)) = true /\
  is_nan (e (MulFloat64Pred (run ch_nan) c_1)) = true.
Proof.
  split; [reflexivity|].
  apply (proj1 (nan_reaches_bound (run ch_nan) (run ch_nan) c_1)). reflexivity.
Defined.

(** ** Lower bounds on the error bound *)

Lemma add_nondecreasing_r x y :
  valid y = true -> nonneg x = true -> nonneg y = true ->
  is_nan (add x y) = true \/ leb y (add x y) = true.
Proof.
  intros Hv Hx Hy. destruct (is_nan (add x y)) eqn:Hn; [left; reflexivity|].
  right. apply add_ge_r; assumption.
Qed.

#[local] Hint Resolve increment_spec_nonneg increment_spec_valid run_nonneg : f64.

Lemma result_bound_ge_increment c :
  chain_valid c = true -> is_result c = true ->
  is_nan (e (run c)) = true \/ leb (Spec.increment (n (run c))) (e (run c)) = true.
Proof.
  destruct c as [n0|c f|c f|c f|c d|c d|c d]; try discriminate;
    cbn [run chain_valid]; intros Hc _; apply andb_prop in Hc; destruct Hc as [Hc Hd];
    destruct (run_valid c Hc) as [Hcn Hce].
  - rewrite AddFloat64_computes. cbn [n e].
    apply add_nondecreasing_r; auto with f64.
  - rewrite SubFloat64_computes. cbn [n e].
    apply add_nondecreasing_r; auto with f64.
  - rewrite MulFloat64Pred_computes. cbn [n e].
    set (v := mul (n (run c)) f).
    apply monotone_trans with (add (Spec.increment v) (mul (e (run c)) (abs f)));
      auto 6 with f64.
    + apply add_nondecreasing; auto with f64.
    + apply add_nondecreasing_r; auto 6 with f64.
  - destruct (run_valid d Hd) as [Hdn Hde].
    rewrite AddFloat64Pred_computes. cbn [n e].
    set (v := add (n (run c)) (n (run d))).
    apply monotone_trans with (add (Spec.increment v) (e (run d))); auto 6 with f64.
    + apply add_nondecreasing; auto with f64.
    + apply add_nondecreasing_r; auto 6 with f64.
  - destruct (run_valid d Hd) as [Hdn Hde].
    rewrite SubFloat64Pred_computes. cbn [n e].
    set (v := sub (n (run c)) (n (run d))).
    apply monotone_trans with (add (Spec.increment v) (e (run d))); auto 6 with f64.
    + apply add_nondecreasing; auto with f64.
    + apply add_nondecreasing_r; auto 6 with f64.
  - destruct (run_valid d Hd) as [Hdn Hde].
    rewrite MulFloat64_computes. cbn [n e].
    set (v := mul (n (run c)) (n (run d))).
    assert (Hv : valid v = true) by (unfold v; auto with f64).
    set (y1 := mul (e (run c)) (abs (n (run d)))).
    set (y2 := mul (e (run d)) (abs v)).
    assert (Hy1 : valid y1 = true /\ nonneg y1 = true) by (unfold y1; auto 6 with f64).
    assert (Hy2 : valid y2 = true /\ nonneg y2 = true) by (unfold y2; auto 6 with f64).
    destruct Hy1 as [Hy1v Hy1n], Hy2 as [Hy2v Hy2n].
    apply monotone_trans with (add (add (Spec.increment v) y1) y2); auto 6 with f64.
    + apply monotone_trans with (add (Spec.increment v) y1); auto 6 with f64.
      * apply add_nondecreasing; auto with f64.
      * apply add_nondecreasing; auto 6 with f64.
    + apply add_nondecreasing_r; auto 8 with f64.
Qed.

(** Every operation charges at least the rounding increment of its result:
    along a chain of float64 arguments the error bound of a result is NaN or
    [>=] the increment of its value.  In particular a result that is zero
    never has the error bound 0: it is NaN or [>= SmallestNonzeroFloat64]. *)
Theorem bound_covers_increment (c : chain) :
  chain_valid c = true -> is_result c = true ->
  (is_nan (e (run c)) = true \/
   leb (Spec.increment (n (run c))) (e (run c)) = true) /\
  (eqb (n (run c)) zero = true ->
   is_nan (e (run c)) = true \/ leb SmallestNonzeroFloat64 (e (run c)) = true).
Proof.
  intros Hc Hr. pose proof (result_bound_ge_increment c Hc Hr) as H.
  split; [exact H|].
  intros Hz. unfold Spec.increment in H. rewrite Hz in H. exact H.
Qed.

Lemma bound_covers_increment_witness :
  chain_valid ch_lost_one = true /\ is_result ch_lost_one = true /\
  eqb (n (run ch_lost_one)) zero = true /\
  (is_nan (e (run ch_lost_one)) = true \/
   leb SmallestNonzeroFloat64 (e (run ch_lost_one)) = true).
Proof.
  repeat (split; [reflexivity|]).
  apply (proj2 (bound_covers_increment ch_lost_one eq_refl eq_refl)). reflexivity.
Defined.

(** The error bound of a tracked sum or difference is NaN or [>=] the error
    bound of the second operand as well. *)
Theorem tracked_sum_bound_ge_operand (a b : Float64Pred) :
  valid (e b) = true -> nonneg (e a) = true -> nonneg (e b) = true ->
  (is_nan (e (AddFloat64Pred a b)) = true \/
   leb (e b) (e (AddFloat64Pred a b)) = true) /\
  (is_nan (e (SubFloat64Pred a b)) = true \/
   leb (e b) (e (SubFloat64Pred a b)) = true).
Proof.
  intros Hv Ha Hb.
  rewrite AddFloat64Pred_computes, SubFloat64Pred_computes. cbn [e].
  split.
  - apply monotone_trans with (add (Spec.increment (add (n a) (n b))) (e b));
      auto with f64; apply add_nondecreasing_r; auto with f64.
  - apply monotone_trans with (add (Spec.increment (sub (n a) (n b))) (e b));
      auto with f64; apply add_nondecreasing_r; auto with f64.
Qed.

Lemma tracked_sum_bound_ge_operand_witness :
  valid (e (run ch_lost_one)) = true /\
  nonneg (e (run ch_0_plus_2)) = true /\ nonneg (e (run ch_lost_one)) = true /\
  (is_nan (e (AddFloat64Pred (run ch_0_plus_2) (run ch_lost_one))) = true \/
   leb (e (run ch_lost_one)) (e (AddFloat64Pred (run ch_0_plus_2) (run ch_lost_one))) = true).
Proof.
  repeat (split; [reflexivity|]).
  apply (proj1 (tracked_sum_bound_ge_operand (run ch_0_plus_2) (run ch_lost_one)
                  eq_refl eq_refl eq_refl)).
Defined.

(** The cross terms are covered: the error bound of a product is NaN or
    [>=] the former bound scaled by the magnitude of the factor, and for two
    tracked factors also [>=] the second factor's bound scaled by the
    magnitude of the product. *)
Theorem product_bound_ge_cross_terms (a b : Float64Pred) (f : float64) :
  valid (e a) = true -> nonneg (e a) = true ->
  (valid f = true ->
   is_nan (e (MulFloat64Pred a f)) = true \/
   leb (mul (e a) (abs f)) (e (MulFloat64Pred a f)) = true) /\
  (valid (n a) = true -> valid (n b) = true -> valid (e b) = true ->
   nonneg (e b) = true ->
   (is_nan (e (MulFloat64 a b)) = true \/
    leb (mul (e a) (abs (n b))) (e (MulFloat64 a b)) = true) /\
   (is_nan (e (MulFloat64 a b)) = true \/
    leb (mul (e b) (abs (mul (n a) (n b)))) (e (MulFloat64 a b)) = true)).
Proof.
  intros Hav Han.
  rewrite MulFloat64Pred_computes, MulFloat64_computes. cbn [n e].
  split.
  - intros Hf.
    apply monotone_trans
      with (add (Spec.increment (mul (n a) f)) (mul (e a) (abs f)));
      auto 6 with f64; apply add_nondecreasing_r; auto 6 with f64.
  - intros Hna Hnb Hbv Hbn.
    set (v := mul (n a) (n b)).
    assert (Hv : valid v = true) by (unfold v; auto with f64).
    set (y1 := mul (e a) (abs (n b))).
    set (y2 := mul (e b) (abs v)).
    assert (Hy1 : valid y1 = true /\ nonneg y1 = true) by (unfold y1; auto 6 with f64).
    assert (Hy2 : valid y2 = true /\ nonneg y2 = true) by (unfold y2; auto 6 with f64).
    destruct Hy1 as [Hy1v Hy1n], Hy2 as [Hy2v Hy2n].
    assert (Hsum : valid (add (add (Spec.increment v) y1) y2) = true) by auto 8 with f64.
    split.
    + apply monotone_trans with (add (add (Spec.increment v) y1) y2); auto 6 with f64;
        [|apply add_nondecreasing_r; auto 6 with f64].
      apply monotone_trans with (add (Spec.increment v) y1); auto 6 with f64.
      * apply add_nondecreasing_r; auto with f64.
      * apply add_nondecreasing; auto 6 with f64.
    + apply monotone_trans with (add (add (Spec.increment v) y1) y2); auto 6 with f64;
        apply add_nondecreasing_r; auto 6 with f64.
Qed.

Lemma product_bound_ge_cross_terms_witness :
  valid (e (run ch_1_plus_2)) = true /\ nonneg (e (run ch_1_plus_2)) = true /\
  valid c_5 = true /\
  (is_nan (e (MulFloat64Pred (run ch_1_plus_2) c_5)) = true \/
   leb (mul (e (run ch_1_plus_2)) (abs c_5)) (e (MulFloat64Pred (run ch_1_plus_2) c_5)) = true).
Proof.
  repeat (split; [reflexivity|]).
  apply (proj1 (product_bound_ge_cross_terms (run ch_1_plus_2) (run ch_0_plus_3) c_5
                  eq_refl eq_refl)).
  reflexivity.
Defined.

(** ** Chained multiplication without underflow *)

Lemma binary_round_aux_finite s M e0 l s' m2 e2 :
  0 <= M -> e0 <= fexp prec emax (Zdigits2 M + e0) ->
  binary_round_aux prec emax s M e0 l = S754_finite s' m2 e2 ->
  fexp prec emax (Zdigits2 M + e0) <= e2 /\
  M / 2 ^ (fexp prec emax (Zdigits2 M + e0) - e0)
    <= Zpos m2 * 2 ^ (e2 - fexp prec emax (Zdigits2 M + e0))
    <= M / 2 ^ (fexp prec emax (Zdigits2 M + e0) - e0) + 1.
Proof.
  intros Hm He0.
  unfold binary_round_aux, shr_fexp.
  set (t := fexp prec emax (Zdigits2 M + e0)) in *.
  pose proof (shr_spec (shr_record_of_loc M l) e0 (t - e0)) as H1.
  rewrite shr_m_of_loc in H1. specialize (H1 Hm).
  destruct (shr (shr_record_of_loc M l) e0 (t - e0)) as [mrs1 e1].
  cbn [fst snd] in H1. destruct H1 as [Hm1 He1].
  rewrite Z.max_r in Hm1, He1 by lia.
  assert (He1x : e1 = t) by lia. clear He1. subst e1.
  rewrite Hm1. set (m1 := M / 2 ^ (t - e0)) in *.
  assert (H2k1 : 0 < 2 ^ (t - e0)) by (apply Z.pow_pos_nonneg; lia).
  assert (Hm1nn : 0 <= m1) by (apply Z.div_pos; lia).
  pose proof (round_nearest_even_bounds m1 (loc_of_shr_record mrs1)) as Hr.
  set (m1r := round_nearest_even m1 (loc_of_shr_record mrs1)) in *.
  pose proof (shr_spec (shr_record_of_loc m1r loc_Exact) t
                (fexp prec emax (Zdigits2 m1r + t) - t)) as H2.
  rewrite shr_m_of_loc in H2. specialize (H2 ltac:(lia)).
  destruct (shr (shr_record_of_loc m1r loc_Exact) t
              (fexp prec emax (Zdigits2 m1r + t) - t)) as [mrs2 e2'].
  cbn [fst snd] in H2. destruct H2 as [Hm2 He2].
  pose proof (fexp_ge_emin (Zdigits2 M + e0)) as Htemin. fold t in Htemin.
  destruct (Z_le_gt_dec (fexp prec emax (Zdigits2 m1r + t) - t) 0) as [Hk2|Hk2].
  - rewrite Z.max_l in Hm2, He2 by lia.
    rewrite Z.pow_0_r, Z.div_1_r in Hm2. rewrite Z.add_0_r in He2. subst e2'.
    rewrite Hm2.
    destruct m1r as [|q|q] eqn:Eq; try discriminate.
    destruct (t <=? emax - prec); try discriminate.
    intros Heq. injection Heq as _ <- <-.
    rewrite Z.sub_diag, Z.pow_0_r, Z.mul_1_r. lia.
  - rewrite Z.max_r in Hm2, He2 by lia.
    assert (Hk2' : fexp prec emax (Zdigits2 m1r + t) - t = Zdigits2 m1r - prec).
    { unfold fexp in *. lia. }
    rewrite Hk2' in *.
    assert (Hm1rpos : 0 < m1r).
    { destruct m1r; simpl in Hk2; unfold prec in *; lia. }
    destruct (Zdigits2_bounds m1r Hm1rpos) as [Hl Hu].
    (* the first shift leaves at most [prec] digits *)
    assert (Hm1lt : m1 < 2 ^ prec).
    { unfold m1. apply Z.div_lt_upper_bound; [lia|].
      rewrite <- Z.pow_add_r by (unfold prec; lia).
      destruct (Z.eq_dec M 0) as [->|HMnz]; [apply Z.pow_pos_nonneg; unfold prec; lia|].
      destruct (Zdigits2_bounds M ltac:(lia)) as [_ HuM].
      apply Z.lt_le_trans with (2 ^ Zdigits2 M); [exact HuM|].
      apply Z.pow_le_mono_r; [lia|]. unfold t, fexp, prec in *. lia. }
    assert (Hge : 2 ^ prec <= m1r).
    { apply Z.le_trans with (2 ^ (Zdigits2 m1r - 1)); [|lia].
      apply Z.pow_le_mono_r; lia. }
    assert (Hm1r : m1r = 2 ^ prec) by lia.
    assert (Hd : Zdigits2 m1r = prec + 1).
    { apply Z.le_antisymm; [|lia].
      apply Zdigits2_upper; [unfold prec; lia|]. rewrite Hm1r. split; [lia|].
      apply Z.pow_lt_mono_r; unfold prec; lia. }
    rewrite Hd in *. replace (prec + 1 - prec) with 1 in * by lia.
    rewrite Hm2, Hm1r. change (2 ^ prec / 2 ^ 1) with (2 ^ (prec - 1)).
    change (2 ^ (prec - 1)) with (Zpos (2 ^ 52)).
    destruct (e2' <=? emax - prec); try discriminate.
    intros Heq. injection Heq as _ <- <-.
    subst e2'. replace (t + 1 - t) with 1 by lia.
    change (Z.pos (2 ^ 52) * 2 ^ 1) with (2 ^ prec). lia.
Qed.

Local Open Scope Q_scope.

Lemma pow2_pos k : 0 < pow2 k.
Proof. apply Qpower_0_lt. reflexivity. Qed.

Lemma pow2_add a b : pow2 (a + b) == pow2 a * pow2 b.
Proof. apply Qpower_plus. discriminate. Qed.

Lemma pow2_Z k : (0 <= k)%Z -> pow2 k == inject_Z (2 ^ k).
Proof. intros Hk. unfold pow2. rewrite (Zpower_Qpower 2 k Hk). reflexivity. Qed.

Lemma dy_mul A p B q : dy A p * dy B q == dy (A * B) (p + q).
Proof. unfold dy. rewrite inject_Z_mult, pow2_add. ring. Qed.

Lemma dy_shift A p c : (c <= p)%Z -> dy A p == dy (A * 2 ^ (p - c)) c.
Proof.
  intros Hc. unfold dy.
  replace p with ((p - c) + c)%Z at 1 by lia.
  rewrite pow2_add, pow2_Z by lia. rewrite inject_Z_mult. ring.
Qed.

Lemma dy_le A B p q c :
  (c <= p)%Z -> (c <= q)%Z ->
  (A * 2 ^ (p - c) <= B * 2 ^ (q - c))%Z <-> dy A p <= dy B q.
Proof.
  intros Hp Hq. rewrite (dy_shift A p c Hp), (dy_shift B q c Hq). unfold dy.
  rewrite Zle_Qle. symmetry. apply Qmult_le_r. apply pow2_pos.
Qed.

Lemma dy_nonneg A p : (0 <= A)%Z -> 0 <= dy A p.
Proof.
  intros HA. unfold dy. apply Qmult_le_0_compat.
  - rewrite Zle_Qle in HA. exact HA.
  - apply Qlt_le_weak, pow2_pos.
Qed.

Lemma mag_nonneg x : 0 <= mag x.
Proof. destruct x; simpl; try apply Qle_refl. apply dy_nonneg. lia. Qed.

Lemma one_minus_eps : 1 - eps == dy (2 ^ 52 - 1) (-52).
Proof. vm_compute. reflexivity. Qed.

Lemma one_plus_eps : 1 + eps == dy (2 ^ 52 + 1) (-52).
Proof. vm_compute. reflexivity. Qed.

Lemma rel_err_Z (M P m1 R : Z) :
  (0 < P)%Z -> (P * m1 <= M < P * (m1 + 1))%Z -> (m1 <= R <= m1 + 1)%Z ->
  (2 ^ 52 <= R)%Z ->
  ((2 ^ 52 - 1) * (R * P) <= 2 ^ 52 * M <= (2 ^ 52 + 1) * (R * P))%Z.
Proof.
  intros HP HM HR H52. change (2 ^ 52)%Z with 4503599627370496%Z in *. nia.
Qed.

Local Open Scope Z_scope.

Lemma mul_fexp_le sx mx ex sy my ey :
  valid (S754_finite sx mx ex) = true -> valid (S754_finite sy my ey) = true ->
  ex + ey <= fexp prec emax (Zdigits2 (Zpos (mx * my)) + (ex + ey)).
Proof.
  intros Hx Hy.
  unfold valid, valid_binary, bounded in Hx, Hy.
  apply andb_prop in Hx, Hy. destruct Hx as [Hx _], Hy as [Hy _].
  apply canonical_cases in Hx, Hy.
  destruct (digits2_pos_bounds mx) as [Hlx _], (digits2_pos_bounds my) as [Hly _].
  assert (Hprod : 2 ^ (Zpos (digits2_pos mx) - 1 + (Zpos (digits2_pos my) - 1))
                  <= Zpos (mx * my)).
  { rewrite Z.pow_add_r by lia. rewrite Pos2Z.inj_mul.
    apply Z.mul_le_mono_nonneg; lia. }
  apply Zdigits2_lower in Hprod; [|lia].
  unfold fexp, emin, prec, emax in *. lia.
Qed.

Lemma normal_mantissa s m ex : normal (S754_finite s m ex) = true -> 2 ^ 52 <= Zpos m.
Proof.
  unfold normal. intros H. apply Z.eqb_eq in H.
  destruct (digits2_pos_bounds m) as [Hl _]. rewrite H in Hl. exact Hl.
Qed.

(** What rounding [M * 2^e0] to a normal number [m2 * 2^e2] leaves of [M]:
    the relative error is at most 2^-52. *)
Lemma round_rel_err s M e0 l s' m2 e2 :
  0 <= M -> e0 <= fexp prec emax (Zdigits2 M + e0) ->
  binary_round_aux prec emax s M e0 l = S754_finite s' m2 e2 ->
  normal (S754_finite s' m2 e2) = true ->
  exists P R, 0 < P /\ 2 ^ 52 <= R /\ e0 <= e2 /\
    Zpos m2 * 2 ^ (e2 - e0) = R * P /\
    P * (M / P) <= M < P * (M / P + 1) /\
    M / P <= R <= M / P + 1.
Proof.
  intros HM He0 Hr Hn.
  destruct (binary_round_aux_finite _ _ _ _ _ _ _ HM He0 Hr) as [Ht HR].
  set (t := fexp prec emax (Zdigits2 M + e0)) in *.
  exists (2 ^ (t - e0)), (Zpos m2 * 2 ^ (e2 - t)).
  assert (HP : 0 < 2 ^ (t - e0)) by (apply Z.pow_pos_nonneg; lia).
  assert (HQ : 0 < 2 ^ (e2 - t)) by (apply Z.pow_pos_nonneg; lia).
  apply normal_mantissa in Hn.
  assert (HR52 : 2 ^ 52 <= Zpos m2 * 2 ^ (e2 - t)).
  { apply Z.le_trans with (Zpos m2 * 1); [lia|].
    apply Z.mul_le_mono_nonneg_l; lia. }
  assert (Hsplit : Zpos m2 * 2 ^ (e2 - e0) = Zpos m2 * 2 ^ (e2 - t) * 2 ^ (t - e0)).
  { replace (e2 - e0) with ((e2 - t) + (t - e0)) by lia.
    rewrite Z.pow_add_r by lia. ring. }
  pose proof (Z.mul_div_le M _ HP).
  pose proof (Z.mul_succ_div_gt M _ HP).
  repeat split; try assumption; lia.
Qed.

Local Open Scope Q_scope.

Lemma mul_err x y :
  valid x = true -> valid y = true -> normal (mul x y) = true ->
  (1 - eps) * mag (mul x y) <= mag x * mag y /\
  mag x * mag y <= (1 + eps) * mag (mul x y).
Proof.
  intros Hx Hy Hn.
  destruct x as [sx|sx| |sx mx ex]; try (destruct y; discriminate).
  destruct y as [sy|sy| |sy my ey]; try discriminate.
  pose proof (mul_fexp_le _ _ _ _ _ _ Hx Hy) as Hpre.
  unfold mul, SFmul in *.
  destruct (binary_round_aux prec emax (xorb sx sy) (Z.pos (mx * my)) (ex + ey) loc_Exact)
    as [| | |s' m2 e2] eqn:Hr; try discriminate.
  destruct (round_rel_err _ _ _ _ _ _ _ (Pos2Z.is_nonneg _) Hpre Hr Hn)
    as (P & R & HP & HR & He & Hm2 & HM & HRb).
  pose proof (rel_err_Z _ _ _ _ HP HM HRb HR) as [Hlo Hhi].
  cbn [mag]. rewrite one_minus_eps, one_plus_eps, !dy_mul.
  split.
  - apply (dy_le _ _ _ _ (ex + ey - 52)); [lia | lia |].
    replace (-52 + e2 - (ex + ey - 52))%Z with (e2 - (ex + ey))%Z by lia.
    replace (ex + ey - (ex + ey - 52))%Z with 52%Z by lia.
    rewrite <- Z.mul_assoc, Hm2, <- Pos2Z.inj_mul. lia.
  - apply (dy_le _ _ _ _ (ex + ey - 52)); [lia | lia |].
    replace (-52 + e2 - (ex + ey - 52))%Z with (e2 - (ex + ey))%Z by lia.
    replace (ex + ey - (ex + ey - 52))%Z with 52%Z by lia.
    rewrite <- (Z.mul_assoc (2 ^ 52 + 1)), Hm2, <- Pos2Z.inj_mul. lia.
Qed.

Local Open Scope Z_scope.

Lemma div_core_facts mx ex my ey :
  let '(q, e', _) := SFdiv_core_binary prec emax (Zpos mx) ex (Zpos my) ey in
  0 <= ex - ey - e' /\
  q = Zpos mx * 2 ^ (ex - ey - e') / Zpos my /\
  e' <= fexp prec emax (Zdigits2 q + e').
Proof.
  unfold SFdiv_core_binary.
  set (z := Zdigits2 (Z.pos mx) + ex - (Zdigits2 (Z.pos my) + ey)).
  set (e' := Z.min (fexp prec emax z) (ex - ey)).
  set (s := ex - ey - e').
  set (m' := match s with Z0 => Z.pos mx | Zpos _ => Z.shiftl (Z.pos mx) s | Zneg _ => 0 end).
  assert (Hs : 0 <= s) by (unfold s, e'; lia).
  assert (Hm' : m' = Zpos mx * 2 ^ s).
  { unfold m'. destruct s as [|p|p] eqn:Es; [lia| |lia].
    apply Z.shiftl_mul_pow2. lia. }
  assert (Hq : fst (Z.div_eucl m' (Zpos my)) = m' / Zpos my) by reflexivity.
  destruct (Z.div_eucl m' (Z.pos my)) as [q r]. cbn [fst] in Hq.
  assert (H2s : 0 < 2 ^ s) by (apply Z.pow_pos_nonneg; lia).
  split; [exact Hs|]. split; [rewrite Hq, Hm'; reflexivity|].
  destruct (Z_le_gt_dec e' (emin prec emax)) as [Hle|Hgt].
  - pose proof (fexp_ge_emin (Zdigits2 q + e')). lia.
  - assert (He' : e' <= z - prec) by (unfold e', fexp in *; lia).
    destruct (digits2_pos_bounds mx) as [Hlx _], (digits2_pos_bounds my) as [_ Huy].
    cbn [Zdigits2] in z.
    assert (Hlow : 2 ^ (prec - 1) <= q).
    { rewrite Hq, Hm'. apply Z.div_le_lower_bound; [lia|].
      apply Z.le_trans with (2 ^ Zpos (digits2_pos my) * 2 ^ (prec - 1)).
      - apply Z.mul_le_mono_nonneg_r; [apply Z.pow_nonneg|]; lia.
      - rewrite <- Z.pow_add_r by (unfold prec; lia).
        apply Z.le_trans with (2 ^ (Zpos (digits2_pos mx) - 1) * 2 ^ s).
        + rewrite <- Z.pow_add_r by lia.
          apply Z.pow_le_mono_r; [lia|]. unfold s, z in *. lia.
        + apply Z.mul_le_mono_nonneg_r; lia. }
    apply Zdigits2_lower in Hlow; [|unfold prec; lia].
    unfold fexp. lia.
Qed.

Local Open Scope Q_scope.

Lemma div_err x y :
  normal (div x y) = true ->
  (1 - eps) * (mag (div x y) * mag y) <= mag x /\
  mag x <= (1 + eps) * (mag (div x y) * mag y).
Proof.
  intros Hn.
  destruct x as [sx|sx| |sx mx ex]; try (destruct y; discriminate).
  destruct y as [sy|sy| |sy my ey]; try discriminate.
  unfold div, SFdiv in *.
  pose proof (div_core_facts mx ex my ey) as Hcore.
  destruct (SFdiv_core_binary prec emax (Z.pos mx) ex (Z.pos my) ey) as [[q e'] lz].
  destruct Hcore as (Hs & Hq & Hpre).
  assert (Hq0 : (0 <= q)%Z).
  { rewrite Hq. apply Z.div_pos; [|lia].
    apply Z.mul_nonneg_nonneg; [lia | apply Z.pow_nonneg; lia]. }
  destruct (binary_round_aux prec emax (xorb sx sy) q e' lz)
    as [| | |s' m2 e2] eqn:Hr; try discriminate.
  destruct (round_rel_err _ _ _ _ _ _ _ Hq0 Hpre Hr Hn)
    as (P & R & HP & HR & He & Hm2 & HM & HRb).
  set (M := (Zpos mx * 2 ^ (ex - ey - e'))%Z) in *.
  assert (HM' : (Zpos my * P * (q / P) <= M < Zpos my * P * (q / P + 1))%Z).
  { assert (Hdd : (q / P = M / (Zpos my * P))%Z).
    { rewrite Hq. apply Z.div_div; lia. }
    rewrite Hdd. split.
    - apply Z.mul_div_le. lia.
    - apply Z.mul_succ_div_gt. lia. }
  pose proof (rel_err_Z M (Zpos my * P) (q / P) R ltac:(lia) HM' HRb HR) as [Hlo Hhi].
  assert (Hshape : forall c : Z,
             (c * (Zpos m2 * Zpos my) * 2 ^ (e2 - e') = c * (R * (Zpos my * P)))%Z).
  { intros c. replace (R * (Zpos my * P))%Z with (R * P * Zpos my)%Z by ring.
    rewrite <- Hm2. ring. }
  assert (HMx : (Zpos mx * 2 ^ (ex - ey - e' + 52) = 2 ^ 52 * M)%Z).
  { unfold M. rewrite Z.pow_add_r by lia. ring. }
  cbn [mag]. rewrite one_minus_eps, one_plus_eps, !dy_mul.
  split.
  - apply (dy_le _ _ _ _ (e' + ey - 52)); [lia | lia |].
    replace (-52 + (e2 + ey) - (e' + ey - 52))%Z with (e2 - e')%Z by lia.
    replace (ex - (e' + ey - 52))%Z with (ex - ey - e' + 52)%Z by lia.
    rewrite Hshape, HMx. exact Hlo.
  - apply (dy_le _ _ _ _ (e' + ey - 52)); [lia | lia |].
    replace (-52 + (e2 + ey) - (e' + ey - 52))%Z with (e2 - e')%Z by lia.
    replace (ex - (e' + ey - 52))%Z with (ex - ey - e' + 52)%Z by lia.
    rewrite Hshape, HMx. exact Hhi.
Qed.

(** A float64 that does not exceed the exact sum does not exceed the rounded
    sum either. *)
Lemma add_ge_value z x y :
  valid z = true -> normal z = true -> nonneg z = true ->
  normal x = true -> nonneg x = true -> normal y = true -> nonneg y = true ->
  mag z <= mag x + mag y ->
  leb z (add x y) = true.
Proof.
  destruct z as [| | |[|] mz ez0]; try discriminate.
  destruct x as [| | |[|] mx ex]; try discriminate.
  destruct y as [| | |[|] my ey]; try discriminate.
  intros Hz _ _ _ _ _ _ Hq. cbn [mag] in Hq.
  unfold add, SFadd, cond_Zopp.
  set (ez := Z.min ex ey).
  pose proof (shl_align_value mx ex ez ltac:(lia)) as E1.
  pose proof (shl_align_value my ey ez ltac:(lia)) as E2.
  set (m1 := fst (shl_align mx ex ez)) in *.
  set (m2 := fst (shl_align my ey ez)) in *.
  change (Z.pos m1 + Z.pos m2)%Z with (Zpos (m1 + m2)).
  cbn [binary_normalize].
  assert (Hsum : dy (Zpos mx) ex + dy (Zpos my) ey == dy (Zpos (m1 + m2)) ez).
  { rewrite (dy_shift (Zpos mx) ex ez), (dy_shift (Zpos my) ey ez) by lia.
    rewrite <- E1, <- E2. unfold dy. rewrite Pos2Z.inj_add, inject_Z_plus. ring. }
  rewrite Hsum in Hq. clear Hsum.
  pose proof (binary_round_rounded false (m1 + m2) ez) as Hr.
  cbv zeta in Hr.
  set (t := fexp prec emax (Z.pos (digits2_pos (m1 + m2)) + ez)) in *.
  unfold valid, valid_binary, bounded in Hz.
  apply andb_prop in Hz. destruct Hz as [Hcan _].
  unfold canonical_mantissa in Hcan. apply Z.eqb_eq in Hcan.
  assert (Hdig : (Zpos (digits2_pos mz) + ez0 <= Zpos (digits2_pos (m1 + m2)) + ez)%Z).
  { apply (dy_le _ _ _ _ (Z.min ez0 ez)) in Hq; [|lia|lia].
    destruct (digits2_pos_bounds mz) as [Hl _].
    destruct (digits2_pos_bounds (m1 + m2)) as [_ Hu].
    set (c := Z.min ez0 ez) in *.
    assert (Hc1 : (0 < 2 ^ (ez0 - c))%Z) by (apply Z.pow_pos_nonneg; lia).
    assert (Hc2 : (0 < 2 ^ (ez - c))%Z) by (apply Z.pow_pos_nonneg; lia).
    assert (H : (2 ^ (Zpos (digits2_pos mz) - 1 + (ez0 - c))
                 < 2 ^ (Zpos (digits2_pos (m1 + m2)) + (ez - c)))%Z).
    { rewrite !Z.pow_add_r by lia.
      apply Z.le_lt_trans with (Zpos mz * 2 ^ (ez0 - c))%Z.
      - apply Z.mul_le_mono_nonneg_r; lia.
      - apply Z.le_lt_trans with (Zpos (m1 + m2) * 2 ^ (ez - c))%Z; [exact Hq|].
        apply Z.mul_lt_mono_pos_r; lia. }
    apply Z.pow_lt_mono_r_iff in H; lia. }
  assert (Hext : (ez0 <= t)%Z).
  { rewrite <- Hcan. unfold t. apply fexp_le. exact Hdig. }
  set (M := if (t <=? ez)%Z then (Z.pos (m1 + m2) * 2 ^ (ez - t))%Z
            else (Z.pos (m1 + m2) / 2 ^ (t - ez))%Z) in *.
  assert (HM : (t = ez0 -> (Zpos mz <= M)%Z) /\ (0 < M)%Z).
  { unfold M. destruct (t <=? ez)%Z eqn:Hte.
    - apply Z.leb_le in Hte. split.
      + intros Heq. apply (dy_le _ _ _ _ t) in Hq; [|lia|lia].
        replace (ez0 - t)%Z with 0%Z in Hq by lia.
        rewrite Z.pow_0_r, Z.mul_1_r in Hq. exact Hq.
      + apply Z.mul_pos_pos; [lia | apply Z.pow_pos_nonneg; lia].
    - apply Z.leb_gt in Hte.
      assert (Hcase : t = ez0 -> (Zpos mz <= Z.pos (m1 + m2) / 2 ^ (t - ez))%Z).
      { intros Heq. apply (dy_le _ _ _ _ ez) in Hq; [|lia|lia].
        rewrite Z.sub_diag, Z.pow_0_r, Z.mul_1_r in Hq.
        apply Z.div_le_lower_bound; [apply Z.pow_pos_nonneg; lia|].
        replace (t - ez)%Z with (ez0 - ez)%Z by lia.
        rewrite Z.mul_comm. exact Hq. }
      split; [exact Hcase|].
      destruct (Z.eq_dec t ez0) as [Heq|Hne]; [specialize (Hcase Heq); lia|].
      assert (Ht : t = (Zpos (digits2_pos (m1 + m2)) + ez - prec)%Z).
      { pose proof (fexp_ge_emin (Zpos (digits2_pos mz) + ez0)).
        unfold t, fexp in *. lia. }
      apply Z.lt_le_trans with (2 ^ (prec - 1))%Z; [reflexivity|].
      apply Z.div_le_lower_bound; [apply Z.pow_pos_nonneg; lia|].
      rewrite <- Z.pow_add_r by (unfold prec in *; lia).
      destruct (digits2_pos_bounds (m1 + m2)) as [Hl _].
      replace (t - ez + (prec - 1))%Z with (Zpos (digits2_pos (m1 + m2)) - 1)%Z by lia.
      exact Hl. }
  destruct HM as [HM1 HM2].
  destruct Hr as [Hz0|q e2 _ _ Hq2|_]; [lia| |reflexivity].
  unfold leb, SFleb, SFcompare.
  destruct Hq2 as [[He Hq2]|[He _]].
  - subst e2. destruct (Z.compare_spec ez0 t) as [Heq|Hlt|Hgt]; [|reflexivity|lia].
    specialize (HM1 (eq_sym Heq)).
    rewrite Pos.compare_cont_spec. cbn [Pos.switch_Eq].
    destruct (Pos.compare_spec mz q) as [| |Hgt]; try reflexivity. lia.
  - destruct (Z.compare_spec ez0 e2) as [Heq|Hlt|Hgt]; [lia|reflexivity|lia].
Qed.

Lemma scale (c x y : Q) : 0 <= c -> x <= y -> c * x <= c * y.
Proof. intros Hc Hxy. nra. Qed.

Lemma eps_nonneg : 0 <= eps.
Proof. unfold eps. lra. Qed.

Lemma one_minus_eps_nonneg : 0 <= 1 - eps.
Proof. unfold eps. lra. Qed.

Lemma one_plus_eps_nonneg : 0 <= 1 + eps.
Proof. unfold eps. lra. Qed.

Section Chain.

(** Magnitudes of the numbers ([N], [A], [B]), of the products
    ([N1], [N2] chained; [C], [N'] single), of their scaled magnitudes
    ([W1], [W2], [W']), of their increments ([I1], [I2], [I']) and of the
    cross term [Y], each within the relative error [eps] of what it rounds. *)
Variables N A B N1 N2 C N' W1 W2 W' I1 I2 I' Y : Q.
Let k := 1 - eps.
Let K := 1 + eps.
Hypothesis pos : 0 <= N /\ 0 <= A /\ 0 <= B /\ 0 <= N1 /\ 0 <= N2 /\ 0 <= C /\ 0 <= N' /\
                 0 <= W1 /\ 0 <= W2 /\ 0 <= W' /\ 0 <= I1 /\ 0 <= I2 /\ 0 <= I' /\ 0 <= Y.
Hypothesis h1 : N * A <= K * N1.
Hypothesis h2 : N1 * B <= K * N2.
Hypothesis h3 : k * C <= A * B.
Hypothesis h4 : k * N' <= N * C.
Hypothesis w1 : eps * N1 <= K * W1.
Hypothesis w2 : eps * N2 <= K * W2.
Hypothesis w' : k * W' <= eps * N'.
Hypothesis i1 : W1 <= K * (I1 * k).
Hypothesis i2 : W2 <= K * (I2 * k).
Hypothesis i' : k * (I' * k) <= W'.
Hypothesis y : I1 * B <= K * Y.

Ltac nonneg_product := repeat apply Qmult_le_0_compat; assumption.

Lemma chain_upper : k*k*k*k*k * I' <= eps * (N * A * B).
Proof.
  destruct pos as (?&?&?&?&?&?&?&?&?&?&?&?&?&?).
  pose proof one_minus_eps_nonneg. pose proof eps_nonneg.
  assert (c1 : 0 <= k * k * k) by nonneg_product.
  assert (c2 : 0 <= k * k) by nonneg_product.
  assert (c3 : 0 <= k * eps) by nonneg_product.
  assert (c4 : 0 <= eps * N) by nonneg_product.
  (* k^5 I' <= k^3 W' <= k^2 eps N' <= k eps N C <= eps N A B *)
  pose proof (scale _ _ _ c1 i') as s1.
  pose proof (scale _ _ _ c2 w') as s2.
  pose proof (scale _ _ _ c3 h4) as s3.
  pose proof (scale _ _ _ c4 h3) as s4.
  lra.
Qed.

Lemma chain_lower_I2 : eps * (N * A * B) <= K*K*K*K * k * I2.
Proof.
  destruct pos as (?&?&?&?&?&?&?&?&?&?&?&?&?&?).
  pose proof one_minus_eps_nonneg. pose proof eps_nonneg. pose proof one_plus_eps_nonneg.
  assert (c1 : 0 <= eps * B) by nonneg_product.
  assert (c2 : 0 <= eps * K) by nonneg_product.
  assert (c3 : 0 <= K * K) by nonneg_product.
  assert (c4 : 0 <= K * K * K) by nonneg_product.
  pose proof (scale _ _ _ c1 h1) as s1.
  pose proof (scale _ _ _ c2 h2) as s2.
  pose proof (scale _ _ _ c3 w2) as s3.
  pose proof (scale _ _ _ c4 i2) as s4.
  lra.
Qed.

Lemma chain_lower_Y : eps * (N * A * B) <= K*K*K*K * k * Y.
Proof.
  destruct pos as (?&?&?&?&?&?&?&?&?&?&?&?&?&?).
  pose proof one_minus_eps_nonneg. pose proof eps_nonneg. pose proof one_plus_eps_nonneg.
  assert (c1 : 0 <= eps * B) by nonneg_product.
  assert (c2 : 0 <= K * B) by nonneg_product.
  assert (c3 : 0 <= K * K * B) by nonneg_product.
  assert (c4 : 0 <= K * K * K * k) by nonneg_product.
  pose proof (scale _ _ _ c1 h1) as s1.
  pose proof (scale _ _ _ c2 w1) as s2.
  pose proof (scale _ _ _ c3 i1) as s3.
  pose proof (scale _ _ _ c4 y) as s4.
  lra.
Qed.

(** The single-step increment is covered by the chained increment and the
    cross term together: each of them is within a factor
    [((1+eps)/(1-eps))^4 <= 2] of it. *)
Lemma chain_bound : I' <= I2 + Y.
Proof.
  pose proof chain_upper. pose proof chain_lower_I2. pose proof chain_lower_Y.
  destruct pos as (?&?&?&?&?&?&?&?&?&?&?&?&?&?).
  assert (Hc : K*K*K*K * k <= 2 * (k*k*k*k*k)).
  { unfold K, k, eps. vm_compute. discriminate. }
  assert (Hk5 : 0 < k*k*k*k*k).
  { unfold k, eps. vm_compute. reflexivity. }
  assert (G2 : 2 * (k*k*k*k*k * I') <= K*K*K*K * k * (I2 + Y)) by lra.
  assert (G3 : K*K*K*K * k * (I2 + Y) <= 2 * (k*k*k*k*k) * (I2 + Y)) by nra.
  nra.
Qed.

End Chain.

Lemma normal_finite x : normal x = true -> is_finite x = true.
Proof. destruct x; try discriminate; reflexivity. Qed.

Lemma normal_not_zero x : normal x = true -> eqb x zero = false.
Proof. destruct x as [| | |[|] m ex]; try discriminate; reflexivity. Qed.

Lemma increment_normal v :
  normal v = true -> Spec.increment v = increment_of v.
Proof.
  intros Hv. unfold Spec.increment, increment_of, scaled.
  rewrite (normal_not_zero v Hv), one_minus_macheps_eq. reflexivity.
Qed.

Lemma mag_abs x : mag (abs x) = mag x.
Proof. destruct x; reflexivity. Qed.

Lemma mag_macheps : mag macheps == eps.
Proof. vm_compute. reflexivity. Qed.

Lemma mag_one_minus_macheps : mag one_minus_macheps == 1 - eps.
Proof. vm_compute. reflexivity. Qed.

Lemma scaled_err v :
  valid v = true -> normal (scaled v) = true ->
  (1 - eps) * mag (scaled v) <= eps * mag v /\
  eps * mag v <= (1 + eps) * mag (scaled v).
Proof.
  intros Hv Hn.
  destruct (mul_err macheps (abs v) eq_refl (abs_valid v Hv) Hn) as [Hlo Hhi].
  rewrite mag_abs, mag_macheps in Hlo, Hhi. split; assumption.
Qed.

Lemma increment_of_err v :
  normal (increment_of v) = true ->
  (1 - eps) * (mag (increment_of v) * (1 - eps)) <= mag (scaled v) /\
  mag (scaled v) <= (1 + eps) * (mag (increment_of v) * (1 - eps)).
Proof.
  intros Hn. destruct (div_err (scaled v) one_minus_macheps Hn) as [Hlo Hhi].
  fold (increment_of v) in Hlo, Hhi.
  rewrite mag_one_minus_macheps in Hlo, Hhi. split; assumption.
Qed.

Lemma MulFloat64Pred_New_finite n0 f :
  is_finite f = true ->
  e (MulFloat64Pred (NewFloat64Pred n0) f) = Spec.increment (mul n0 f).
Proof.
  intros Hf. rewrite MulFloat64Pred_computes. unfold NewFloat64Pred. cbn [n e].
  rewrite (mul_zero_abs_finite _ Hf).
  rewrite add_zero_r by apply increment_spec_nonneg.
  apply add_zero_l, increment_spec_nonneg.
Qed.

Lemma chained_ge_single_normal (n0 a b : float64) :
  valid n0 = true -> valid a = true -> valid b = true ->
  no_underflow n0 a b = true ->
  is_nan (e (run (chained n0 a b))) = false ->
  leb (e (run (single n0 a b))) (e (run (chained n0 a b))) = true.
Proof.
  intros Hn0 Ha Hb Hnu Hnan.
  unfold no_underflow in Hnu. cbv zeta in Hnu. cbn [forallb] in Hnu.
  repeat (apply andb_prop in Hnu; let H := fresh "Hnorm" in destruct Hnu as [H Hnu]).
  clear Hnu.
  set (n1 := mul n0 a) in *. set (n2 := mul n1 b) in *.
  set (ab := mul a b) in *. set (n' := mul n0 ab) in *.
  assert (Hfa : is_finite a = true).
  { apply normal_finite in Hnorm. unfold n1 in Hnorm.
    apply mul_finite_inv in Hnorm. apply Hnorm. }
  assert (Hfab : is_finite ab = true) by (apply normal_finite; assumption).
  assert (He1 : e (MulFloat64Pred (NewFloat64Pred n0) a) = increment_of n1).
  { rewrite (MulFloat64Pred_New_finite _ _ Hfa). apply increment_normal. assumption. }
  assert (Hn1 : n (MulFloat64Pred (NewFloat64Pred n0) a) = n1).
  { rewrite MulFloat64Pred_computes. reflexivity. }
  assert (Hs : e (run (single n0 a b)) = increment_of n').
  { unfold single. cbn [run]. rewrite (MulFloat64Pred_New_finite n0 (mul a b) Hfab).
    apply increment_normal. assumption. }
  assert (Hc : e (run (chained n0 a b))
               = add (increment_of n1)
                     (add (increment_of n2) (mul (increment_of n1) (abs b)))).
  { unfold chained. cbn [run]. rewrite MulFloat64Pred_computes. cbn [n e].
    rewrite He1, Hn1. fold n2. rewrite (increment_normal n2) by assumption.
    reflexivity. }
  rewrite He1 in Hnorm9. rewrite Hc in Hnan. rewrite Hs, Hc. clear Hs Hc He1 Hn1.
  set (I1 := increment_of n1) in *. set (I2 := increment_of n2) in *.
  set (I' := increment_of n') in *. set (Y := mul I1 (abs b)) in *.
  assert (Hvn1 : valid n1 = true) by (unfold n1; auto with f64).
  assert (Hvn2 : valid n2 = true) by (unfold n2; auto with f64).
  assert (Hvab : valid ab = true) by (unfold ab; auto with f64).
  assert (Hvn' : valid n' = true) by (unfold n'; auto with f64).
  assert (HvI1 : valid I1 = true) by apply div_valid.
  assert (HvI2 : valid I2 = true) by apply div_valid.
  assert (HvI' : valid I' = true) by apply div_valid.
  assert (HnI1 : nonneg I1 = true) by (unfold I1, increment_of, scaled; auto with f64).
  assert (HnI2 : nonneg I2 = true) by (unfold I2, increment_of, scaled; auto with f64).
  assert (HnI' : nonneg I' = true) by (unfold I', increment_of, scaled; auto with f64).
  assert (HvY : valid Y = true) by (unfold Y; auto with f64).
  assert (HnY : nonneg Y = true) by (unfold Y; auto with f64).
  destruct (add_not_nan _ _ Hnan) as [_ Hz].
  apply leb_trans with (add I2 Y); auto with f64.
  - apply add_ge_value; try assumption.
    destruct (mul_err n0 a Hn0 Ha Hnorm) as [_ h1].
    destruct (mul_err n1 b Hvn1 Hb Hnorm0) as [_ h2].
    destruct (mul_err a b Ha Hb Hnorm1) as [h3 _].
    destruct (mul_err n0 ab Hn0 Hvab Hnorm2) as [h4 _].
    destruct (scaled_err n1 Hvn1 Hnorm3) as [_ w1].
    destruct (scaled_err n2 Hvn2 Hnorm4) as [_ w2].
    destruct (scaled_err n' Hvn' Hnorm5) as [w' _].
    destruct (increment_of_err n1 Hnorm6) as [_ i1].
    destruct (increment_of_err n2 Hnorm7) as [_ i2].
    destruct (increment_of_err n' Hnorm8) as [i' _].
    destruct (mul_err I1 (abs b) HvI1 (abs_valid b Hb) Hnorm9) as [_ y].
    rewrite mag_abs in y.
    apply (chain_bound (mag n0) (mag a) (mag b) (mag n1) (mag n2) (mag ab) (mag n')
             (mag (scaled n1)) (mag (scaled n2)) (mag (scaled n'))
             (mag I1) (mag I2) (mag I') (mag Y)); try assumption.
    repeat split; apply mag_nonneg.
  - apply add_ge_r; auto with f64.
Qed.

(** C9, amended. When neither error bound is NaN and either both orders
    give the same value, or no product and no term of the two error bounds
    underflows, overflows or is NaN, the bound of
    [Construct(n).MulScalar(a).MulScalar(b)] is [>=] the bound of
    [Construct(n).MulScalar(a*b)]: the chained increment and the cross term
    together cover the single-step increment. *)
Theorem chained_bound_ge_single (n0 a b : float64) :
  valid a = true -> valid b = true ->
  n (run (chained n0 a b)) = n (run (single n0 a b)) \/
  (valid n0 = true /\ no_underflow n0 a b = true) ->
  is_nan (e (run (single n0 a b))) = false ->
  is_nan (e (run (chained n0 a b))) = false ->
  leb (e (run (single n0 a b))) (e (run (chained n0 a b))) = true.
Proof.
  intros Ha Hb [Hsame|[Hn0 Hnu]] Hsingle Hchained.
  - apply chained_ge_single_same_value; assumption.
  - apply chained_ge_single_normal; assumption.
Qed.

Lemma chained_bound_ge_single_witness :
  valid c_0_3 = true /\ valid c_0_7 = true /\
  (valid c_0_1 = true /\ no_underflow c_0_1 c_0_3 c_0_7 = true) /\
  n (run (chained c_0_1 c_0_3 c_0_7)) <> n (run (single c_0_1 c_0_3 c_0_7)) /\
  ltb (Spec.increment (n (run (chained c_0_1 c_0_3 c_0_7))))
      (Spec.increment (n (run (single c_0_1 c_0_3 c_0_7)))) = true /\
  is_nan (e (run (single c_0_1 c_0_3 c_0_7))) = false /\
  is_nan (e (run (chained c_0_1 c_0_3 c_0_7))) = false /\
  leb (e (run (single c_0_1 c_0_3 c_0_7))) (e (run (chained c_0_1 c_0_3 c_0_7))) = true.
Proof.
  split; [reflexivity|]. split; [reflexivity|]. split; [split; reflexivity|].
  split; [discriminate|]. split; [reflexivity|].
  split; [reflexivity|]. split; [reflexivity|].
  apply (chained_bound_ge_single c_0_1 c_0_3 c_0_7);
    [reflexivity | reflexivity | right; split; reflexivity | reflexivity | reflexivity].
Defined.
